(** * pii-transform: the command-line driver and the substitution engine

    Part I embeds [src/pii_transform/app/transform.py]: the [Log] helper,
    [get_policy], [process], [parse_args] and [main].  The script is
    effectful (files, the two standard streams, exceptions, calls into the
    engine), so it is written in a small state-and-exception monad over a
    [world] that also keeps the list of collaborator calls in call order.

    Part II models the substitution engine (policy registry, chunk rewriter,
    document reassembler, transformer), whose code is not part of
    [transform.py]. *)

From stdpp Require Import base strings list gmap sorting.
From Stdlib Require Import ZArith Lia Ascii.

Set Warnings "-register-all".

Open Scope string_scope.
Open Scope list_scope.

(** ** Python values and exceptions *)

(** The dynamically typed values the script handles: [None], strings, and
    what [json.load] can return. *)
Inductive pyval : Type :=
| PNone
| PBool (b : bool)
| PInt (z : Z)
| PStr (s : string)
| PList (l : list pyval)
| PDict (kv : list (string * pyval)).

(** Exceptions.  [Exception cls msg] stands for every instance of Python's
    [Exception] class (with [str(e) = msg]); [SystemExit] and
    [KeyboardInterrupt] derive from [BaseException] only, so an
    [except Exception] clause does not catch them. *)
Inductive exn : Type :=
| Exception (cls msg : string)
| SystemExit (code : Z)
| KeyboardInterrupt.

Definition isinstance_Exception (e : exn) : bool :=
  match e with
  | Exception _ _ => true
  | _ => false
  end.

(** [str(e)] as used by the f-string in [main], which only ever formats an
    instance of [Exception]. *)
Definition str_exn (e : exn) : string :=
  match e with
  | Exception _ msg => msg
  | SystemExit code => EmptyString
  | KeyboardInterrupt => EmptyString
  end.

(** What [argparse] stores for an argument that takes a value: the string
    given, or the empty list it is left with when the string given is the
    separator [--] (the parser removes the first [--] from the strings of an
    argument before it takes their value). *)
Inductive argval : Type :=
| AStr (s : string)
| ANil.

#[global] Instance argval_eq_dec : EqDecision argval.
Proof. solve_decision. Defined.

(** [str(v)] *)
Definition str_arg (v : argval) : string :=
  match v with
  | AStr s => s
  | ANil => "[]"
  end.

Definition py_of_arg (v : argval) : pyval :=
  match v with
  | AStr s => PStr s
  | ANil => PList []
  end.

(** Truth value of an optional argument: [None], the empty string and the
    empty list are false. *)
Definition truthy (o : option argval) : bool :=
  match o with
  | Some (AStr s) => negb (bool_decide (s = EmptyString))
  | _ => false
  end.

Definition py_of_opt (o : option argval) : pyval :=
  match o with
  | Some v => py_of_arg v
  | None => PNone
  end.

(** The string a true argument is. *)
Definition path_of (o : option argval) : string :=
  match o with
  | Some (AStr s) => s
  | _ => EmptyString
  end.

(** ** The world *)

(** Calls that leave the script, in the order they are made. *)
Inductive event : Type :=
| EvOpen (path : string)
| EvConstruct (default_policy policy : pyval) (placeholder_file : option argval)
| EvLoadDoc (infile : argval)
| EvLoadPii (pii : argval)
| EvTransform
| EvDump (outfile : argval).

Record world : Type := World {
  fs : gmap string string;
  stdout : list string;
  stderr : list string;
  trace : list event
}.

Definition M (A : Type) : Type := world -> (exn + A) * world.

Definition ret {A} (a : A) : M A := fun w => (inr a, w).

Definition raise {A} (e : exn) : M A := fun w => (inl e, w).

Definition bind {A B} (m : M A) (k : A -> M B) : M B :=
  fun w =>
    match m w with
    | (inr a, w') => k a w'
    | (inl e, w') => (inl e, w')
    end.

(** [try: m  except ... as e: h e] where the clause decides by [catches]. *)
Definition try_except {A} (m : M A) (catches : exn -> bool) (h : exn -> M A) : M A :=
  fun w =>
    match m w with
    | (inl e, w') => if catches e then h e w' else (inl e, w')
    | r => r
    end.

Notation "x <-- m ;; k" := (bind m (fun x => k))
  (at level 100, m at next level, right associativity).
Notation "m ;;; k" := (bind m (fun _ => k))
  (at level 100, right associativity).

Definition lift {A} (r : exn + A) : M A := fun w => (r, w).

Definition emit (e : event) : M unit :=
  fun w => (inr tt, World (fs w) (stdout w) (stderr w) (trace w ++ [e])).

(** The line terminator [print] appends. *)
Definition newline : string := String (ascii_of_nat 10) EmptyString.

(** [" ".join(items)] *)
Fixpoint join_sp (items : list string) : string :=
  match items with
  | [] => EmptyString
  | [s] => s
  | s :: rest => s +:+ " " +:+ join_sp rest
  end.

(** [print] of the items to [sys.stderr], and to [sys.stdout]: the items
    joined by one space, then a newline. *)
Definition print_stderr (items : list string) : M unit :=
  fun w => (inr tt, World (fs w) (stdout w) (stderr w ++ [join_sp items +:+ newline]) (trace w)).

Definition print_stdout (items : list string) : M unit :=
  fun w => (inr tt, World (fs w) (stdout w ++ [join_sp items +:+ newline]) (stderr w) (trace w)).

(** [sys.exit(code)] *)
Definition sys_exit {A} (code : Z) : M A := raise (SystemExit code).

(** [open(path, encoding="utf-8")] followed by reading the whole file. *)
Definition open_read (path : string) : M string :=
  emit (EvOpen path) ;;;
  fun w =>
    match fs w !! path with
    | Some content => (inr content, w)
    | None => (inl (Exception "FileNotFoundError" path), w)
    end.

(** ** class Log *)

Record Log : Type := mkLog { _v : bool }.

Definition Log_call (self : Log) (msg : string) (args : list string) : M unit :=
  if _v self then print_stderr (msg :: args) else ret tt.

(** ** The collaborators

    [transform.py] imports the engine ([PiiTransformer], [POLICIES]) and the
    document and collection loaders of [pii_data]; [json] is the standard
    library's.  The script's control flow is verified for every behaviour of
    these: each one either returns a value or raises.  The constructor and
    the loaders may read the files; only [dump] writes. *)
Class Collaborators : Type := {
  transformer : Type;
  document : Type;
  piicollection : Type;
  (** the catalogue of policy names *)
  POLICIES : list string;
  (** [json.load] on the text of a file *)
  json_load : string -> exn + pyval;
  (** [PiiTransformer(default_policy=, policy=, placeholder_file=)] *)
  PiiTransformer :
    pyval -> pyval -> option argval -> gmap string string -> exn + transformer;
  (** [LocalSrcDocumentFile(infile)] *)
  LocalSrcDocumentFile : argval -> gmap string string -> exn + document;
  (** [PiiCollectionLoader()] then [.load(pii)] *)
  PiiCollectionLoader_load : argval -> gmap string string -> exn + piicollection;
  (** [trf(doc, pii)] *)
  transformer_call : transformer -> document -> piicollection -> exn + document;
  (** [out.dump(outfile)]: the new file system, and whether it raised *)
  document_dump :
    document -> argval -> gmap string string -> (exn + unit) * gmap string string
}.

Section Script.

Context `{C : Collaborators}.

Definition call_fs {A} (ev : event) (f : gmap string string -> exn + A) : M A :=
  emit ev ;;; fun w => (f (fs w), w).

Definition call_dump (out : document) (outfile : argval) : M unit :=
  emit (EvDump outfile) ;;;
  fun w =>
    let '(r, fs') := document_dump out outfile (fs w) in
    (r, World fs' (stdout w) (stderr w) (trace w)).

(** ** get_policy *)

Definition get_policy (policy_file : option argval) (log : Log) : M pyval :=
  if negb (truthy policy_file) then ret PNone
  else
    let path := path_of policy_file in
    Log_call log ". Loading policy file:" [path] ;;;
    content <-- open_read path ;;
    lift (json_load content).

(** ** The argument namespace *)

Record Namespace : Type := mkNamespace {
  infile : argval;
  pii : argval;
  outfile : argval;
  default_policy : option argval;
  policy_file : option argval;
  placeholder_file : option argval;
  hash_key : option argval;
  verbose : bool;
  reraise : bool;
  show_stats : bool;
  show_tasks : bool
}.

(** ** process *)

(** Lines 41-42: the value of [args.default_policy] after the conditional
    assignment.  The assignment updates the namespace in place; nothing
    reads [default_policy] again after the constructor call, and [main]
    only reads [reraise] afterwards. *)
Definition resolved_default_policy (args : Namespace) : pyval :=
  if truthy (hash_key args)
     && bool_decide (default_policy args = Some (AStr "hash"))
  then PDict [("name", PStr "hash"); ("key", py_of_opt (hash_key args))]
  else py_of_opt (default_policy args).

Definition process (args : Namespace) : M unit :=
  let log := mkLog (verbose args) in
  let dp := resolved_default_policy args in
  policy <-- get_policy (policy_file args) log ;;
  trf <-- call_fs (EvConstruct dp policy (placeholder_file args))
                  (PiiTransformer dp policy (placeholder_file args)) ;;
  Log_call log ". Loading document:" [str_arg (infile args)] ;;;
  doc <-- call_fs (EvLoadDoc (infile args)) (LocalSrcDocumentFile (infile args)) ;;
  Log_call log ". Loading Pii collection:" [str_arg (pii args)] ;;;
  pii <-- call_fs (EvLoadPii (pii args)) (PiiCollectionLoader_load (pii args)) ;;
  Log_call log ". Processing and dumping to:" [str_arg (outfile args)] ;;;
  out <-- (emit EvTransform ;;; lift (transformer_call trf doc pii)) ;;
  call_dump out (outfile args).

(** ** parse_args

    The parser that [parse_args] declares, run by [argparse.parse_args] on
    the argument list.  Destinations and actions are the ones of the
    [add_argument] calls; [argparse] itself is modelled as it runs this set
    of declarations: exact and abbreviated long options, [--opt=value],
    clustered single-dash flags, the [--] separator and its removal from the
    strings of an argument, the [choices] check, and exit status 2 on any
    usage error.  The text of the usage and help messages is not reproduced;
    a [string] holds characters with codes below 256. *)

Inductive dest : Type :=
| d_default_policy | d_policy_file | d_placeholder_file | d_hash_key.

Inductive flag : Type :=
| f_verbose | f_reraise | f_show_stats | f_show_tasks.

Inductive action : Type :=
| Store (d : dest) (choices : option (list string))
| StoreConst (f : flag) (b : bool)
| Help.

Definition option_string_actions : list (string * action) :=
  [ ("-h", Help); ("--help", Help);
    ("--default-policy", Store d_default_policy (Some POLICIES));
    ("--policy-file", Store d_policy_file None);
    ("--placeholder-file", Store d_placeholder_file None);
    ("--hash-key", Store d_hash_key None);
    ("-q", StoreConst f_verbose false);
    ("--quiet", StoreConst f_verbose false);
    ("--reraise", StoreConst f_reraise true);
    ("--show-stats", StoreConst f_show_stats true);
    ("--show-tasks", StoreConst f_show_tasks true) ].

(** Values before any argument is seen: [None] for the stored options,
    [True] for [verbose] (a [store_false] destination), [False] for the
    [store_true] ones.  The three positionals are required, so they are
    always overwritten when parsing succeeds. *)
Definition defaults : Namespace :=
  mkNamespace (AStr EmptyString) (AStr EmptyString) (AStr EmptyString)
              None None None None true false false false.

Definition set_dest (d : dest) (v : argval) (ns : Namespace) : Namespace :=
  match d with
  | d_default_policy =>
      mkNamespace (infile ns) (pii ns) (outfile ns) (Some v) (policy_file ns)
        (placeholder_file ns) (hash_key ns) (verbose ns) (reraise ns)
        (show_stats ns) (show_tasks ns)
  | d_policy_file =>
      mkNamespace (infile ns) (pii ns) (outfile ns) (default_policy ns) (Some v)
        (placeholder_file ns) (hash_key ns) (verbose ns) (reraise ns)
        (show_stats ns) (show_tasks ns)
  | d_placeholder_file =>
      mkNamespace (infile ns) (pii ns) (outfile ns) (default_policy ns)
        (policy_file ns) (Some v) (hash_key ns) (verbose ns) (reraise ns)
        (show_stats ns) (show_tasks ns)
  | d_hash_key =>
      mkNamespace (infile ns) (pii ns) (outfile ns) (default_policy ns)
        (policy_file ns) (placeholder_file ns) (Some v) (verbose ns) (reraise ns)
        (show_stats ns) (show_tasks ns)
  end.

Definition set_flag (f : flag) (b : bool) (ns : Namespace) : Namespace :=
  match f with
  | f_verbose =>
      mkNamespace (infile ns) (pii ns) (outfile ns) (default_policy ns)
        (policy_file ns) (placeholder_file ns) (hash_key ns) b (reraise ns)
        (show_stats ns) (show_tasks ns)
  | f_reraise =>
      mkNamespace (infile ns) (pii ns) (outfile ns) (default_policy ns)
        (policy_file ns) (placeholder_file ns) (hash_key ns) (verbose ns) b
        (show_stats ns) (show_tasks ns)
  | f_show_stats =>
      mkNamespace (infile ns) (pii ns) (outfile ns) (default_policy ns)
        (policy_file ns) (placeholder_file ns) (hash_key ns) (verbose ns)
        (reraise ns) b (show_tasks ns)
  | f_show_tasks =>
      mkNamespace (infile ns) (pii ns) (outfile ns) (default_policy ns)
        (policy_file ns) (placeholder_file ns) (hash_key ns) (verbose ns)
        (reraise ns) (show_stats ns) b
  end.

(** The [i]-th positional of the parser: [infile], [pii], [outfile]. *)
Definition set_positional (i : nat) (v : argval) (ns : Namespace) : Namespace :=
  match i with
  | 0 =>
      mkNamespace v (pii ns) (outfile ns) (default_policy ns) (policy_file ns)
        (placeholder_file ns) (hash_key ns) (verbose ns) (reraise ns)
        (show_stats ns) (show_tasks ns)
  | 1 =>
      mkNamespace (infile ns) v (outfile ns) (default_policy ns) (policy_file ns)
        (placeholder_file ns) (hash_key ns) (verbose ns) (reraise ns)
        (show_stats ns) (show_tasks ns)
  | _ =>
      mkNamespace (infile ns) (pii ns) v (default_policy ns) (policy_file ns)
        (placeholder_file ns) (hash_key ns) (verbose ns) (reraise ns)
        (show_stats ns) (show_tasks ns)
  end.

(** *** Strings *)

Fixpoint assoc {A} (k : string) (l : list (string * A)) : option A :=
  match l with
  | [] => None
  | (k', a) :: rest => if bool_decide (k = k') then Some a else assoc k rest
  end.

(** [s.split(c, 1)] when [c] occurs in [s]. *)
Fixpoint split_at (c : ascii) (s : string) : option (string * string) :=
  match s with
  | EmptyString => None
  | String c' rest =>
      if bool_decide (c' = c) then Some (EmptyString, rest)
      else match split_at c rest with
           | Some (a, b) => Some (String c' a, b)
           | None => None
           end
  end.

Fixpoint contains (c : ascii) (s : string) : bool :=
  match s with
  | EmptyString => false
  | String c' rest => bool_decide (c' = c) || contains c rest
  end.

(** A decimal digit.  A [string] holds characters with codes below 256,
    and the decimal digits among these are [0] to [9]. *)
Definition is_digit (c : ascii) : bool :=
  let n := nat_of_ascii c in (48 <=? n)%nat && (n <=? 57)%nat.

Fixpoint all_digits (s : string) : bool :=
  match s with
  | EmptyString => true
  | String c rest => is_digit c && all_digits rest
  end.

Definition nonempty (s : string) : bool :=
  match s with EmptyString => false | _ => true end.

(** [s] without one final newline: the end anchor of a pattern also
    matches just before it. *)
Fixpoint chomp (s : string) : string :=
  match s with
  | EmptyString => EmptyString
  | String c rest =>
      if bool_decide (s = newline) then EmptyString else String c (chomp rest)
  end.

(** The parser's matcher for negative numbers: a dash, then digits, or a
    dash, optional digits, a dot and digits, up to the end of the string or
    to its final newline. *)
Definition negative_number (s : string) : bool :=
  match s with
  | String "-" rest =>
      let body := chomp rest in
      (nonempty body && all_digits body)
      || match split_at "." body with
         | Some (a, b) => all_digits a && nonempty b && all_digits b
         | None => false
         end
  | _ => false
  end.

(** *** Classifying the argument strings *)

Inductive token : Type :=
| TArg
| TDash
| TOpt (a : option action) (option_string : string) (explicit_arg : option string).

(** Options an abbreviated or clustered string could stand for. *)
Definition get_option_tuples (arg : string)
  : list (action * string * option string) :=
  match arg with
  | String "-" (String "-" _) =>
      let '(option_prefix, explicit_arg) :=
        match split_at "=" arg with
        | Some (p, e) => (p, Some e)
        | None => (arg, None)
        end in
      omap (fun '(o, a) =>
              if String.prefix option_prefix o then Some (a, o, explicit_arg)
              else None)
           option_string_actions
  | String "-" (String c rest) =>
      let short_option_prefix := String "-" (String c EmptyString) in
      omap (fun '(o, a) =>
              if bool_decide (o = short_option_prefix) then Some (a, o, Some rest)
              else if String.prefix arg o then Some (a, o, None)
              else None)
           option_string_actions
  | _ => []
  end.

(** Whether one argument string is an option; [inl] is a usage error. *)
Definition parse_optional (arg : string) : string + token :=
  match arg with
  | String "-" _ =>
      match assoc arg option_string_actions with
      | Some a => inr (TOpt (Some a) arg None)
      | None =>
          if bool_decide (String.length arg = 1) then inr TArg
          else
            let by_eq :=
              match split_at "=" arg with
              | Some (o, e) =>
                  match assoc o option_string_actions with
                  | Some a => Some (TOpt (Some a) o (Some e))
                  | None => None
                  end
              | None => None
              end in
            match by_eq with
            | Some t => inr t
            | None =>
                match get_option_tuples arg with
                | [(a, o, e)] => inr (TOpt (Some a) o e)
                | _ :: _ :: _ => inl ("ambiguous option: " +:+ arg)
                | [] =>
                    if negative_number arg then inr TArg
                    else if contains " " arg then inr TArg
                    else inr (TOpt None arg None)
                end
            end
      end
  | _ => inr TArg
  end.

(** Everything after the first [--] is an argument. *)
Fixpoint classify (args : list string) : string + list (string * token) :=
  match args with
  | [] => inr []
  | a :: rest =>
      if bool_decide (a = "--") then inr ((a, TDash) :: map (fun s => (s, TArg)) rest)
      else
        match parse_optional a with
        | inl msg => inl msg
        | inr t =>
            match classify rest with
            | inl msg => inl msg
            | inr l => inr ((a, t) :: l)
            end
        end
  end.

(** *** Consuming the classified arguments *)

Definition usage : string := "usage: transform [-h] infile pii outfile".

(** [parser.error(msg)]: usage and message on stderr, exit status 2. *)
Definition parser_error {A} (msg : string) : M A :=
  print_stderr [usage] ;;;
  print_stderr ["error:"; msg] ;;;
  sys_exit 2.

(** The help action: help text on stdout, exit status 0. *)
Definition print_help_exit {A} : M A :=
  print_stdout [usage] ;;; sys_exit 0.

Record pstate : Type := mkPstate {
  ps_ns : Namespace;
  ps_npos : nat;              (* positionals filled so far *)
  ps_extras : list string;    (* unrecognized arguments *)
  ps_after_pos : bool         (* the previous string filled a positional *)
}.

Definition initial_pstate : pstate := mkPstate defaults 0 [] false.

Definition add_extra (s : string) (st : pstate) : pstate :=
  mkPstate (ps_ns st) (ps_npos st) (ps_extras st ++ [s]) false.

(** The value of an argument from its strings: the first [--] among them
    is removed; the string that is left is the value, and when none is left
    the value is the empty list. *)
Definition get_values (arg_strings : list string) : argval :=
  match arg_strings with
  | [s] => if bool_decide (s = "--") then ANil else AStr s
  | [s1; s2] => if bool_decide (s1 = "--") then AStr s2 else AStr s1
  | _ => ANil
  end.

(** The next positional takes the value [v] of the string [s], or [s] is
    left over when the three positionals are filled. *)
Definition take_positional (v : argval) (s : string) (st : pstate) : pstate :=
  if (ps_npos st <? 3)%nat
  then mkPstate (set_positional (ps_npos st) v (ps_ns st)) (S (ps_npos st))
                (ps_extras st) true
  else add_extra s st.

(** [value not in action.choices] *)
Definition check_value (choices : option (list string)) (v : string) : bool :=
  match choices with
  | Some l => bool_decide (v ∈ l)
  | None => true
  end.

(** A single value is checked against the choices; the empty list has no
    element to check. *)
Definition take_store (d : dest) (choices : option (list string)) (v : argval)
    (st : pstate) : M pstate :=
  match v with
  | AStr s =>
      if check_value choices s
      then ret (mkPstate (set_dest d v (ps_ns st)) (ps_npos st) (ps_extras st)
                  false)
      else parser_error ("invalid choice: " +:+ s)
  | ANil =>
      ret (mkPstate (set_dest d v (ps_ns st)) (ps_npos st) (ps_extras st) false)
  end.

Definition take_flag (f : flag) (b : bool) (st : pstate) : pstate :=
  mkPstate (set_flag f b (ps_ns st)) (ps_npos st) (ps_extras st) false.

Definition is_short (option_string : string) : bool :=
  match option_string with
  | String "-" (String c _) => negb (bool_decide (c = "-"%char))
  | _ => false
  end.

(** The single-dash options spelled by the tail of a cluster such as
    [-qq]; [None] when a letter is not an option. *)
Fixpoint short_chain (tail : string) : option (list action) :=
  match tail with
  | EmptyString => Some []
  | String c rest =>
      match assoc (String "-" (String c EmptyString)) option_string_actions with
      | Some a =>
          match short_chain rest with
          | Some l => Some (a :: l)
          | None => None
          end
      | None => None
      end
  end.

Fixpoint run_flags (acts : list action) (st : pstate) : M pstate :=
  match acts with
  | [] => ret st
  | StoreConst f b :: rest => run_flags rest (take_flag f b st)
  | Help :: _ => print_help_exit
  | Store _ _ :: _ => parser_error "expected one argument"
  end.

(** The classified arguments are consumed from left to right.  A
    positional takes one argument string and the separator [--] beside it:
    a separator right after the string that filled a positional goes with
    that positional, a separator before an argument string goes with the
    positional this string fills, and any other separator is left over.  An
    option that takes a value takes the next argument string, or the text
    after [=], and never the separator. *)
Fixpoint consume (toks : list (string * token)) (st : pstate) : M pstate :=
  match toks with
  | [] => ret st
  | (s, TArg) :: rest => consume rest (take_positional (get_values [s]) s st)
  | (s, TDash) :: rest =>
      if ps_after_pos st then consume rest st
      else
        match rest with
        | (v, TArg) :: rest' =>
            if (ps_npos st <? 3)%nat
            then consume rest' (take_positional (get_values [s; v]) v st)
            else consume rest (add_extra s st)
        | _ => consume rest (add_extra s st)
        end
  | (s, TOpt None _ _) :: rest => consume rest (add_extra s st)
  | (s, TOpt (Some (Store d ch)) _ None) :: rest =>
      match rest with
      | (v, TArg) :: rest' =>
          st' <-- take_store d ch (get_values [v]) st ;; consume rest' st'
      | _ => parser_error "expected one argument"
      end
  | (s, TOpt (Some (Store d ch)) _ (Some e)) :: rest =>
      st' <-- take_store d ch (get_values [e]) st ;; consume rest st'
  | (s, TOpt (Some a) _ None) :: rest =>
      st' <-- run_flags [a] st ;; consume rest st'
  | (s, TOpt (Some a) o (Some e)) :: rest =>
      if is_short o && nonempty e then
        match short_chain e with
        | Some l => st' <-- run_flags (a :: l) st ;; consume rest st'
        | None => parser_error ("ignored explicit argument " +:+ e)
        end
      else parser_error ("ignored explicit argument " +:+ e)
  end.

Definition parse_args (args : list string) : M Namespace :=
  match classify args with
  | inl msg => parser_error msg
  | inr toks =>
      st <-- consume toks initial_pstate ;;
      if (ps_npos st <? 3)%nat
      then parser_error "the following arguments are required"
      else
        match ps_extras st with
        | [] => ret (ps_ns st)
        | _ => parser_error "unrecognized arguments"
        end
  end.

(** ** main

    [args] is the argument list, [sys.argv[1:]] when [main] is called
    without one. *)

Definition main (args : list string) : M unit :=
  args <-- parse_args args ;;
  try_except (process args) isinstance_Exception
    (fun e =>
       print_stderr ["Error: " +:+ str_exn e] ;;;
       if reraise args then raise e else sys_exit 1).

End Script.

(** * Part II: the substitution engine

    [transform.py] only drives the engine: the policy catalogue, the chunk
    rewriter, the document reassembler and the transformer live in other
    modules of the package ([pii_transform.api], [pii_transform.helper]).
    This module models them from the specification of the engine. *)

Module Engine.

(** Modelled from the spec: the error taxonomy of the engine (the
    exceptions [ConfigError], [DataIntegrityError], [PolicyError]). *)
Inductive error : Type :=
| ConfigError
| DataIntegrityError
| PolicyError.

(** Modelled from the spec: a PII occurrence, with its entity type, owning
    chunk, span within the chunk's text, and original value. *)
Record occurrence : Type := mkOccurrence {
  o_type : string;
  o_chunk : string;
  o_start : nat;
  o_length : nat;
  o_value : string
}.

#[global] Instance occurrence_eq_dec : EqDecision occurrence.
Proof. solve_decision. Defined.

(** Modelled from the spec: a document chunk, an id and a text. *)
Record chunk : Type := mkChunk {
  c_id : string;
  c_text : string
}.

(** Modelled from the spec: a tree of chunks; text lives in the leaves,
    structural nodes carry their metadata and their ordered children. *)
Inductive tree : Type :=
| Leaf (c : chunk)
| Node (meta : string) (children : list tree).

(** Modelled from the spec: the three document variants; a table is a list
    of rows, each with its row id and its cells by column id. *)
Inductive doc : Type :=
| Sequence (chunks : list chunk)
| Tree (root : tree)
| Table (rows : list (string * list (string * chunk))).

(** Modelled from the spec: the catalogue of built-in policies. *)
Inductive policy : Type :=
| P_identity | P_label | P_hash | P_placeholder | P_annotate.

(** Modelled from the spec: the names of the built-in policies. *)
Definition POLICY_NAMES : list (string * policy) :=
  [ ("identity", P_identity); ("label", P_label); ("hash", P_hash);
    ("placeholder", P_placeholder); ("annotate", P_annotate) ].

(** Modelled from the spec: the registry lookup [policy_for(name)]. *)
Definition policy_for (name : string) : option policy :=
  assoc name POLICY_NAMES.

(** Modelled from the spec: a policy specification, a name and its
    parameters. *)
Record policy_spec : Type := mkSpec {
  p_name : string;
  p_params : gmap string string
}.

(** Modelled from the spec: a bound policy of the policy resolver, a
    registry entry with its parameters, ready to invoke. *)
Definition bound : Type := policy * gmap string string.

(** Modelled from the spec: the transformer holds its resolved policy
    configuration and the placeholder table. *)
Record trf : Type := mkTrf {
  t_default : option bound;
  t_types : gmap string bound;
  t_table : gmap string (list string)
}.

Section Traversals.

Context {A B : Type} (f : A → error + B).

(** Modelled from the spec: the reassembler visits chunks in order and
    reports a failure instead of a partial result: [f] on every element,
    left to right, stopping at the first error. *)
Fixpoint map_err (l : list A) : error + list B :=
  match l with
  | [] => inr []
  | x :: rest =>
      match f x with
      | inl e => inl e
      | inr y =>
          match map_err rest with
          | inl e => inl e
          | inr ys => inr (y :: ys)
          end
      end
  end.

End Traversals.

Section Fallible.

Context (f : chunk → error + chunk).

(** Modelled from the spec: the depth-first reassembly of a tree: a leaf
    is rewritten, a structural node is rebuilt around its reassembled
    children with its metadata and their order. *)
Fixpoint map_tree_err (t : tree) : error + tree :=
  match t with
  | Leaf c =>
      match f c with
      | inl e => inl e
      | inr c' => inr (Leaf c')
      end
  | Node meta children =>
      match map_err map_tree_err children with
      | inl e => inl e
      | inr children' => inr (Node meta children')
      end
  end.

(** Modelled from the spec: a table cell is rewritten on its own, its
    column id copied. *)
Definition map_cell_err (cell : string * chunk) : error + (string * chunk) :=
  match f cell.2 with
  | inl e => inl e
  | inr c' => inr (cell.1, c')
  end.

(** Modelled from the spec: a table row, its row id copied. *)
Definition map_row_err (row : string * list (string * chunk))
  : error + (string * list (string * chunk)) :=
  match map_err map_cell_err row.2 with
  | inl e => inl e
  | inr cells' => inr (row.1, cells')
  end.

(** Modelled from the spec: the document reassembler walks the shape of
    the document and rebuilds it around the rewritten chunks; it completes
    the whole document or fails. *)
Definition map_doc_err (d : doc) : error + doc :=
  match d with
  | Sequence chunks =>
      match map_err f chunks with
      | inl e => inl e
      | inr chunks' => inr (Sequence chunks')
      end
  | Tree root =>
      match map_tree_err root with
      | inl e => inl e
      | inr root' => inr (Tree root')
      end
  | Table rows =>
      match map_err map_row_err rows with
      | inl e => inl e
      | inr rows' => inr (Table rows')
      end
  end.

End Fallible.

Section Pure.

Context (f : chunk → chunk).

(** Modelled from the spec: a tree with [f] applied to every leaf chunk. *)
Fixpoint map_tree (t : tree) : tree :=
  match t with
  | Leaf c => Leaf (f c)
  | Node meta children => Node meta (map map_tree children)
  end.

(** Modelled from the spec: a document with [f] applied to every chunk,
    the arrangement kept. *)
Definition map_doc (d : doc) : doc :=
  match d with
  | Sequence chunks => Sequence (map f chunks)
  | Tree root => Tree (map_tree root)
  | Table rows =>
      Table (map (λ row, (row.1, map (λ cell, (cell.1, f cell.2)) row.2)) rows)
  end.

End Pure.

(** Modelled from the spec: a chunk without its text, only its id. *)
Definition blank (c : chunk) : chunk := mkChunk (c_id c) EmptyString.

(** Modelled from the spec: the structural shape of a document, that is
    the document with the text of every chunk blanked: variant, chunk ids,
    nesting, rows, columns and order are what is left. *)
Definition shape (d : doc) : doc := map_doc blank d.

(** Modelled from the spec: the leaf chunks of a tree, depth first. *)
Fixpoint tree_chunks (t : tree) : list chunk :=
  match t with
  | Leaf c => [c]
  | Node _ children => concat (map tree_chunks children)
  end.

(** Modelled from the spec: the leaf chunks of a document, in document
    order. *)
Definition chunks_of (d : doc) : list chunk :=
  match d with
  | Sequence chunks => chunks
  | Tree root => tree_chunks root
  | Table rows => concat (map (λ row, map snd row.2) rows)
  end.

(** ** Policies *)

Section Policies.

(** Modelled from the spec: the deterministic keyed digest behind the
    [hash] policy: key first, then value. *)
Context (digest : string → string → string).

(** Modelled from the spec: each policy is a function of the occurrence
    and the policy parameters (and the loaded placeholder table) to the
    replacement string.  [hash] is the digest of the original value under
    the configured key and fails without a key; [placeholder] draws the
    first substitute value of the occurrence's type. *)
Definition replacement (table : gmap string (list string)) (b : bound)
    (o : occurrence) : error + string :=
  match b.1 with
  | P_identity => inr (o_value o)
  | P_label => inr ("<" +:+ o_type o +:+ ">")
  | P_hash =>
      match b.2 !! "key" with
      | Some key => inr (digest key (o_value o))
      | None => inl PolicyError
      end
  | P_placeholder =>
      match table !! o_type o with
      | Some (v :: _) => inr v
      | _ => inl PolicyError
      end
  | P_annotate => inr ("<" +:+ o_type o +:+ ":" +:+ o_value o +:+ ">")
  end.

(** Modelled from the spec: validation of one policy specification at
    construction: the name is in the registry, [hash] has its key,
    [placeholder] has a table. *)
Definition bind_spec (table : option (gmap string (list string)))
    (spec : policy_spec) : error + bound :=
  match policy_for (p_name spec) with
  | None => inl ConfigError
  | Some P_hash =>
      match p_params spec !! "key" with
      | Some _ => inr (P_hash, p_params spec)
      | None => inl ConfigError
      end
  | Some P_placeholder =>
      match table with
      | Some _ => inr (P_placeholder, p_params spec)
      | None => inl ConfigError
      end
  | Some p => inr (p, p_params spec)
  end.

(** Modelled from the spec: the constructor
    [Transformer(default_policy, policy_config?, placeholder_source?)],
    which fails with [ConfigError] on an invalid specification. *)
Definition Transformer (default_policy : option policy_spec)
    (policy_config : list (string * policy_spec))
    (placeholder_source : option (gmap string (list string))) : error + trf :=
  match
    match default_policy with
    | None => inr None
    | Some spec =>
        match bind_spec placeholder_source spec with
        | inl e => inl e
        | inr b => inr (Some b)
        end
    end
  with
  | inl e => inl e
  | inr dflt =>
      match
        map_err (λ ts : string * policy_spec,
                   match bind_spec placeholder_source ts.2 with
                   | inl e => inl e
                   | inr b => inr (ts.1, b)
                   end) policy_config
      with
      | inl e => inl e
      | inr types =>
          inr (mkTrf dflt (list_to_map types) (default ∅ placeholder_source))
      end
  end.

(** Modelled from the spec: the resolution order, per-type override, then
    the default policy, then [identity]. *)
Definition resolve (t : trf) (entity : string) : bound :=
  match t_types t !! entity with
  | Some b => b
  | None => default (P_identity, ∅) (t_default t)
  end.

(** ** Chunk rewriter *)

(** Modelled from the spec: the order of the chunk rewriter, by start
    descending. *)
Definition by_start_desc (a b : occurrence) : Prop :=
  (o_start b ≤ o_start a)%nat.

#[global] Instance by_start_desc_dec a b : Decision (by_start_desc a b).
Proof. unfold by_start_desc. apply _. Defined.

(** Modelled from the spec: the occurrences sorted by start descending. *)
Definition sort_desc (occs : list occurrence) : list occurrence :=
  merge_sort by_start_desc occs.

(** Modelled from the spec: the span invariant
    [start + length <= len(chunk_text)]. *)
Definition in_bounds (text : string) (o : occurrence) : bool :=
  (o_start o + o_length o <=? String.length text)%nat.

(** Modelled from the spec: the rejection of identical starts and of
    overlaps, on a list sorted by descending start: no two neighbours share
    a start, and each span ends where the next-higher one begins, or
    before. *)
Fixpoint disjoint_desc (l : list occurrence) : bool :=
  match l with
  | a :: (b :: _) as rest =>
      (o_start b <? o_start a)%nat
      && (o_start b + o_length b <=? o_start a)%nat
      && disjoint_desc rest
  | _ => true
  end.

(** Modelled from the spec: the precondition of the chunk rewriter, checked
    before splicing begins: spans within the text, no identical starts, no
    overlap. *)
Definition check_chunk (text : string) (occs : list occurrence) : bool :=
  forallb (in_bounds text) occs && disjoint_desc (sort_desc occs).

(** Modelled from the spec: the splice of a replacement in place of
    [start, start+length): [text[:start] + repl + text[start+length:]]. *)
Definition splice (text : string) (start length : nat) (repl : string) : string :=
  String.substring 0 start text +:+ repl
  +:+ String.substring (start + length) (String.length text - (start + length)) text.

(** Modelled from the spec: the replacements spliced strictly right to
    left, each computed by the policy resolved for the occurrence. *)
Fixpoint splice_all (t : trf) (text : string) (sorted : list occurrence)
  : error + string :=
  match sorted with
  | [] => inr text
  | o :: rest =>
      match replacement (t_table t) (resolve t (o_type o)) o with
      | inl e => inl e
      | inr repl => splice_all t (splice text (o_start o) (o_length o) repl) rest
      end
  end.

(** Modelled from the spec: the chunk rewriter: sort by start descending,
    then splice; the id of the chunk is kept. *)
Definition rewrite_chunk (t : trf) (occs : list occurrence) (c : chunk)
  : error + chunk :=
  match splice_all t (c_text c) (sort_desc occs) with
  | inl e => inl e
  | inr text => inr (mkChunk (c_id c) text)
  end.

(** ** Transformer *)

(** Modelled from the spec: occurrences grouped by owning chunk id, once
    for the whole document. *)
Definition group (occs : list occurrence) : gmap string (list occurrence) :=
  foldr (λ o m, <[o_chunk o := o :: default [] (m !! o_chunk o)]> m) ∅ occs.

(** Modelled from the spec: the occurrences of one chunk, none when the
    id has no group. *)
Definition occs_of (groups : gmap string (list occurrence)) (id : string)
  : list occurrence :=
  default [] (groups !! id).

(** Modelled from the spec: the integrity of the occurrences against the
    document: every occurrence names a chunk of the document, and the
    occurrences of each chunk pass the rewriter's precondition. *)
Definition validate (d : doc) (occs : list occurrence) : bool :=
  let groups := group occs in
  forallb (λ o, bool_decide (o_chunk o ∈ map c_id (chunks_of d))) occs
  && forallb (λ c, check_chunk (c_text c) (occs_of groups (c_id c))) (chunks_of d).

(** Modelled from the spec: [Transformer.apply(document, occurrences)];
    integrity violations are rejected before any chunk is rewritten, then
    the document is reassembled around the rewritten chunks. *)
Definition apply (t : trf) (d : doc) (occs : list occurrence) : error + doc :=
  if validate d occs
  then
    let groups := group occs in
    map_doc_err (λ c, rewrite_chunk t (occs_of groups (c_id c)) c) d
  else inl DataIntegrityError.

End Policies.

(** Modelled from the spec: two occurrences overlap when their ranges
    [start, start+length) share a character position. *)
Definition overlap (o1 o2 : occurrence) : Prop :=
  ∃ p : nat, (o_start o1 ≤ p < o_start o1 + o_length o1)%nat
             ∧ (o_start o2 ≤ p < o_start o2 + o_length o2)%nat.

End Engine.

(** * Properties of the script *)

(** The collaborator calls a computation adds to the trace. *)
Definition events_of {A} (m : M A) (w : world) : list event :=
  drop (length (trace w)) (trace (snd (m w))).

(** [e1] is recorded strictly before [e2]. *)
Definition before (e1 e2 : event) (evs : list event) : Prop :=
  ∃ i j, i < j ∧ evs !! i = Some e1 ∧ evs !! j = Some e2.

Definition is_open (e : event) : Prop := ∃ p, e = EvOpen p.

Section RunPredicates.

Context `{C : Collaborators}.

(** The calls [process] makes after [get_policy] returned [pol], when
    nothing raises. *)
Definition script (args : Namespace) (pol : pyval) : list event :=
  [ EvConstruct (resolved_default_policy args) pol (placeholder_file args);
    EvLoadDoc (infile args); EvLoadPii (pii args); EvTransform;
    EvDump (outfile args) ].

(** [get_policy] returned [pol] and the constructor is called with it. *)
Definition reaches_construct (args : Namespace) (w : world) (pol : pyval) : Prop :=
  fst (get_policy (policy_file args) (mkLog (verbose args)) w) = inr pol.

(** The run gets as far as calling the transformer [t] on [d] and [p]. *)
Definition reaches_transform (args : Namespace) (w : world)
    (t : transformer) (d : document) (p : piicollection) : Prop :=
  ∃ pol, reaches_construct args w pol
    ∧ PiiTransformer (resolved_default_policy args) pol (placeholder_file args)
        (fs w) = inr t
    ∧ LocalSrcDocumentFile (infile args) (fs w) = inr d
    ∧ PiiCollectionLoader_load (pii args) (fs w) = inr p.

(** A run of [process], stage by stage: the result, the files and the
    recorded calls, according to the first collaborator that raises. *)
Definition process_run (args : Namespace) (w : world) (pol : pyval)
    (evs0 : list event) : Prop :=
  let dp := resolved_default_policy args in
  let ph := placeholder_file args in
  let r := process args w in
  let stops e evs :=
    fst r = inl e ∧ fs (snd r) = fs w ∧ stdout (snd r) = stdout w
    ∧ events_of (process args) w = evs0 ++ evs in
  match PiiTransformer dp pol ph (fs w) with
  | inl e => stops e [EvConstruct dp pol ph]
  | inr t =>
    match LocalSrcDocumentFile (infile args) (fs w) with
    | inl e => stops e [EvConstruct dp pol ph; EvLoadDoc (infile args)]
    | inr d =>
      match PiiCollectionLoader_load (pii args) (fs w) with
      | inl e =>
          stops e [EvConstruct dp pol ph; EvLoadDoc (infile args);
                   EvLoadPii (pii args)]
      | inr p =>
        match transformer_call t d p with
        | inl e =>
            stops e [EvConstruct dp pol ph; EvLoadDoc (infile args);
                     EvLoadPii (pii args); EvTransform]
        | inr out =>
            fst r = fst (document_dump out (outfile args) (fs w))
            ∧ fs (snd r) = snd (document_dump out (outfile args) (fs w))
            ∧ stdout (snd r) = stdout w
            ∧ events_of (process args) w
              = evs0 ++ [EvConstruct dp pol ph; EvLoadDoc (infile args);
                         EvLoadPii (pii args); EvTransform;
                         EvDump (outfile args)]
        end
      end
    end
  end.

End RunPredicates.

Section ParsePredicates.

Context `{C : Collaborators}.






End ParsePredicates.

(** ** A small set of collaborators

    Documents are their text, the transformer returns the document as it
    is, and [dump] writes the text to the output path.  The three arguments
    make the constructor, the document loader or the transformer call
    raise. *)
Definition demo_json (s : string) : exn + pyval :=
  if bool_decide (s = "{}") then inr (PDict [])
  else inl (Exception "JSONDecodeError" s).

Definition demo_read (path : argval) (files : gmap string string) : exn + string :=
  match path with
  | AStr name =>
      match files !! name with
      | Some text => inr text
      | None => inl (Exception "FileNotFoundError" name)
      end
  | ANil => inl (Exception "TypeError" "not a path")
  end.

Definition demo (ctor load call : option exn) : Collaborators := {|
  transformer := unit;
  document := string;
  piicollection := string;
  POLICIES := ["identity"; "label"; "hash"; "placeholder"; "annotate"];
  json_load := demo_json;
  PiiTransformer := fun _ _ _ _ =>
    match ctor with Some e => inl e | None => inr tt end;
  LocalSrcDocumentFile := fun path files =>
    match load with Some e => inl e | None => demo_read path files end;
  PiiCollectionLoader_load := demo_read;
  transformer_call := fun _ d _ =>
    match call with Some e => inl e | None => inr d end;
  document_dump := fun d path files =>
    match path with
    | AStr name => (inr tt, <[name := d]> files)
    | ANil => (inl (Exception "TypeError" "not a path"), files)
    end
|}.

Definition demo_files : gmap string string :=
  {[ "doc.yml" := "Contact Jane Doe"; "pii.json" := "[]"; "policy.json" := "{}" ]}.

Definition demo_world : world := World demo_files [] [] [].

(** The statement that [main] reports every exception of [process]: an error
    line on stderr, then the exception again under [--reraise] and exit
    status 1 otherwise. *)
Definition reports_every_exception `{C : Collaborators}
    (argv : list string) (w : world) : Prop :=
  ∀ args w1 e w2,
    parse_args argv w = (inr args, w1) →
    process args w1 = (inl e, w2) →
    (∃ line, stderr (snd (main argv w)) = stderr w2 ++ [line])
    ∧ fst (main argv w) = inl (if reraise args then e else SystemExit 1).




(** ** Sample inputs *)

Definition quiet_args : Namespace :=
  mkNamespace (AStr "doc.yml") (AStr "pii.json") (AStr "out.yml")
              None None None None false false false false.

Definition hash_args : Namespace :=
  mkNamespace (AStr "doc.yml") (AStr "pii.json") (AStr "out.yml")
              (Some (AStr "hash")) (Some (AStr "policy.json")) None
              (Some (AStr "k")) false false false false.

Definition config_error : exn := Exception "ConfigError" "unknown policy".

Definition integrity_error : exn := Exception "DataIntegrityError" "overlap".

Definition sample_digest (key value : string) : string :=
  "#" +:+ key +:+ ":" +:+ value.

Definition sample_trf : Engine.trf :=
  Engine.mkTrf (Some (Engine.P_label, ∅))
    {[ "EMAIL" := (Engine.P_hash, {[ "key" := "k1" ]}) ]} ∅.

Definition chunk1 : Engine.chunk :=
  Engine.mkChunk "c1" "Contact Jane Doe at jane@x.com".

Definition chunk2 : Engine.chunk := Engine.mkChunk "c2" "nothing here".

Definition sample_tree : Engine.doc :=
  Engine.Tree (Engine.Node "root" [Engine.Leaf chunk1; Engine.Leaf chunk2]).

Definition occ_person : Engine.occurrence :=
  Engine.mkOccurrence "PERSON" "c1" 8 8 "Jane Doe".

Definition occ_email : Engine.occurrence :=
  Engine.mkOccurrence "EMAIL" "c1" 20 10 "jane@x.com".


(** A span over the end of [occ_person] and the blank after it. *)
Definition occ_clash : Engine.occurrence :=
  Engine.mkOccurrence "NAME" "c1" 15 2 "e ".

(** ** Further vocabulary for runs of the script *)

Section RunVocabulary.

Context `{C : Collaborators}.

(** The file [get_policy] opens: the policy file when one is given. *)
Definition policy_events (args : Namespace) : list event :=
  if truthy (policy_file args)
  then [EvOpen (path_of (policy_file args))]
  else [].

(** What [get_policy] returns or raises, read off the files. *)
Definition policy_result (args : Namespace) (w : world) : exn + pyval :=
  if truthy (policy_file args) then
    match fs w !! path_of (policy_file args) with
    | Some content => json_load content
    | None => inl (Exception "FileNotFoundError" (path_of (policy_file args)))
    end
  else inr PNone.

(** The progress line [log(msg, arg)] writes. *)
Definition log_line (msg arg : string) : string :=
  join_sp [msg; arg] +:+ newline.

(** The progress lines of a verbose run in which nothing raises. *)
Definition progress_lines (args : Namespace) : list string :=
  (if truthy (policy_file args)
   then [log_line ". Loading policy file:" (path_of (policy_file args))]
   else [])
  ++ [ log_line ". Loading document:" (str_arg (infile args));
       log_line ". Loading Pii collection:" (str_arg (pii args));
       log_line ". Processing and dumping to:" (str_arg (outfile args)) ].

End RunVocabulary.

(** ** Further sample inputs *)

Definition verbose_args : Namespace :=
  mkNamespace (AStr "doc.yml") (AStr "pii.json") (AStr "out.yml")
              None (Some (AStr "policy.json")) None None
              true false false false.

(** The collection file is not there. *)
Definition missing_pii_args : Namespace :=
  mkNamespace (AStr "doc.yml") (AStr "missing.json") (AStr "out.yml")
              None None None None false false false false.

(** The policy file is not there. *)
Definition absent_policy_args : Namespace :=
  mkNamespace (AStr "doc.yml") (AStr "pii.json") (AStr "out.yml")
              None (Some (AStr "absent.json")) None None
              false false false false.

Definition read_error : exn := Exception "OSError" "unreadable".

(** ** Further vocabulary for the parser *)

(** A string that does not begin with a dash. *)
Definition plain (s : string) : bool :=
  match s with
  | String "-" _ => false
  | _ => true
  end.

(** The constant each flag stores when it is given: [store_false] for
    [verbose], [store_true] for the others. *)
Definition flag_const (f : flag) : bool :=
  match f with
  | f_verbose => false
  | _ => true
  end.

(** The option strings of the four flags. *)
Definition flag_options : list (string * flag) :=
  [ ("-q", f_verbose); ("--quiet", f_verbose); ("--reraise", f_reraise);
    ("--show-stats", f_show_stats); ("--show-tasks", f_show_tasks) ].

(** A parser state with its namespace updated. *)
Definition with_ns (upd : Namespace → Namespace) (st : pstate) : pstate :=
  mkPstate (upd (ps_ns st)) (ps_npos st) (ps_extras st) (ps_after_pos st).

(** The outcome of a computation with [g] applied to the value it returns,
    if it returns. *)
Definition map_run {A B} (g : A → B) (r : (exn + A) * world)
  : (exn + B) * world :=
  match r with
  | (inr a, w) => (inr (g a), w)
  | (inl e, w) => (inl e, w)
  end.

(** The positionals filled so far satisfy [P]. *)
Definition filled (P : argval → Prop) (st : pstate) : Prop :=
  (0 < ps_npos st → P (infile (ps_ns st)))
  ∧ (1 < ps_npos st → P (pii (ps_ns st)))
  ∧ (2 < ps_npos st → P (outfile (ps_ns st))).

Section ParseVocabulary.

Context `{C : Collaborators}.

(** The effects of a parser step: none when it returns; when it fails, a
    usage error (exit status 2, something written to stderr, nothing to
    stdout) or the help (exit status 0, one text written to stdout, nothing
    to stderr), and in both cases no file touched and no collaborator
    called. *)
Definition tidy {A} (m : M A) : Prop :=
  ∀ w r w', m w = (r, w') →
    match r with
    | inr _ => w' = w
    | inl e =>
        fs w' = fs w ∧ trace w' = trace w
        ∧ ((e = SystemExit 2 ∧ stdout w' = stdout w
            ∧ ∃ lines, lines ≠ [] ∧ stderr w' = stderr w ++ lines)
           ∨ (e = SystemExit 0 ∧ stderr w' = stderr w
              ∧ ∃ text, stdout w' = stdout w ++ [text]))
    end.

(** Every flag declaration stores the constant of its flag. *)
Definition wf_flag (a : action) : Prop :=
  ∀ f b, a = StoreConst f b → b = flag_const f.

Definition wf_flag_token (t : token) : Prop :=
  ∀ a o e, t = TOpt (Some a) o e → wf_flag a.

End ParseVocabulary.

(** Closes [e ∉ l] for a literal list [l] of events of other kinds. *)
Ltac not_in_list :=
  let H := fresh "H" in
  intros H;
  repeat (apply elem_of_cons in H as [H|H]; [discriminate H|]);
  by apply elem_of_nil in H.

Lemma Log_call_inv log msg args w :
  ∃ lines, Log_call log msg args w
           = (inr tt, World (fs w) (stdout w) (stderr w ++ lines) (trace w)).
Proof.
  destruct log as [[]]; cbn.
  - eexists; reflexivity.
  - exists []. rewrite app_nil_r. by destruct w.
Qed.

Ltac log_step :=
  match goal with
  | |- context [Log_call ?l ?m ?a ?w] =>
      let lines := fresh "lines" in
      destruct (Log_call_inv l m a w) as [lines ->]; cbn
  end.

Section ScriptFacts.

Context `{C : Collaborators}.

(** [get_policy] reads at most one file and writes none. *)
Lemma get_policy_inv pf log w r w' :
  get_policy pf log w = (r, w') →
  fs w' = fs w ∧ stdout w' = stdout w ∧
  ∃ evs, trace w' = trace w ++ evs ∧ Forall is_open evs.
Proof.
  unfold get_policy. destruct (truthy pf); cbn.
  - unfold bind. destruct (Log_call_inv log ". Loading policy file:"
                             [path_of pf] w) as [lines ->].
    unfold open_read, bind, emit, lift; cbn.
    destruct (fs w !! path_of pf); intros [= <- <-]; cbn;
      (split; [done|]; split; [done|]; eexists; split; [done|]);
      repeat constructor; by eexists.
  - intros [= <- <-]. split; [done|]. split; [done|].
    exists []. by rewrite app_nil_r.
Qed.

Lemma events_of_app {A} (m : M A) w evs :
  trace (snd (m w)) = trace w ++ evs → events_of m w = evs.
Proof. unfold events_of. intros ->. by rewrite drop_app_length. Qed.

Lemma process_stages args w pol w1 :
  get_policy (policy_file args) (mkLog (verbose args)) w = (inr pol, w1) →
  ∃ evs0, events_of (get_policy (policy_file args) (mkLog (verbose args))) w = evs0
          ∧ Forall is_open evs0 ∧ process_run args w pol evs0.
Proof.
  intros Hgp.
  destruct (get_policy_inv _ _ _ _ _ Hgp) as (Hfs & Hout & evs0 & Htr & Hopen).
  exists evs0. split; [apply events_of_app; by rewrite Hgp|]. split; [done|].
  unfold process_run, events_of, process, bind. rewrite Hgp.
  unfold call_fs, call_dump, bind, emit, lift; cbn. rewrite Hfs.
  assert (Hfin : ∀ evs, drop (length (trace w)) (trace w1 ++ evs) = evs0 ++ evs).
  { intros evs. by rewrite Htr, <- app_assoc, drop_app_length. }
  destruct (PiiTransformer _ _ _ _) as [e|t]; cbn.
  { by rewrite Hfin. }
  log_step.
  destruct (LocalSrcDocumentFile _ _) as [e|d]; cbn.
  { by rewrite <- !app_assoc, Hfin. }
  log_step.
  destruct (PiiCollectionLoader_load _ _) as [e|p]; cbn.
  { by rewrite <- !app_assoc, Hfin. }
  log_step.
  destruct (transformer_call _ _ _) as [e|out]; cbn.
  { by rewrite <- !app_assoc, Hfin. }
  destruct (document_dump _ _ _) as [r fs']; cbn.
  by rewrite <- !app_assoc, Hfin.
Qed.

(** When [get_policy] raises, [process] stops there. *)
Lemma process_policy_error args w e w1 :
  get_policy (policy_file args) (mkLog (verbose args)) w = (inl e, w1) →
  process args w = (inl e, w1).
Proof. intros Hgp. unfold process, bind. by rewrite Hgp. Qed.

(** The recorded calls are the file read of [get_policy], if any, followed
    by an initial part of the script. *)
Lemma process_events args w :
  ∃ evs0 n pol,
    Forall is_open evs0
    ∧ events_of (process args) w = evs0 ++ take n (script args pol)
    ∧ (0 < n → reaches_construct args w pol).
Proof.
  destruct (get_policy (policy_file args) (mkLog (verbose args)) w)
    as [[e|pol] w1] eqn:Hgp.
  - destruct (get_policy_inv _ _ _ _ _ Hgp) as (_ & _ & evs0 & Htr & Hopen).
    exists evs0, 0, PNone. split; [done|]. split; [|lia].
    rewrite take_0, app_nil_r. apply events_of_app.
    by rewrite (process_policy_error _ _ _ _ Hgp).
  - destruct (process_stages _ _ _ _ Hgp) as (evs0 & _ & Hopen & Hrun).
    assert (Hreach : reaches_construct args w pol)
      by (unfold reaches_construct; by rewrite Hgp).
    unfold process_run in Hrun.
    repeat case_match; destruct Hrun as (_ & _ & _ & ->).
    + by exists evs0, 1, pol.
    + by exists evs0, 2, pol.
    + by exists evs0, 3, pol.
    + by exists evs0, 4, pol.
    + by exists evs0, 5, pol.
Qed.

Lemma open_not_construct evs0 dp pol ph :
  Forall is_open evs0 → EvConstruct dp pol ph ∉ evs0.
Proof.
  intros Hall Hin. rewrite Forall_forall in Hall.
  by destruct (Hall _ Hin).
Qed.

(** Every constructor call [process] makes has the arguments of lines 44-45. *)
Lemma process_construct_args args w dp pol ph :
  EvConstruct dp pol ph ∈ events_of (process args) w →
  dp = resolved_default_policy args ∧ ph = placeholder_file args
  ∧ reaches_construct args w pol.
Proof.
  destruct (process_events args w) as (evs0 & n & pol' & Hopen & -> & Hreach).
  rewrite elem_of_app. intros [Hin|Hin].
  - by apply open_not_construct in Hin.
  - destruct n as [|n]; [by rewrite take_0 in Hin; inversion Hin|].
    apply elem_of_take in Hin as (i & Hi & _).
    unfold script in Hi.
    do 5 (destruct i as [|i]; [by inversion Hi; subst;
                                  (split; [|split; [|apply Hreach; lia]])|]).
    done.
Qed.

End ScriptFacts.

(** C10: a [Log] built with [verbose=False] leaves the whole world as it is
    (nothing is written anywhere); a [Log] built with [verbose=True] appends
    the message line to stderr and leaves stdout as it is. *)
Theorem Log_quiet_or_stderr (msg : string) (args : list string) (w : world) :
  Log_call (mkLog false) msg args w = (inr tt, w)
  ∧ Log_call (mkLog true) msg args w
    = (inr tt, World (fs w) (stdout w)
                 (stderr w ++ [join_sp (msg :: args) +:+ newline]) (trace w)).
Proof. split; reflexivity. Qed.

Section ScriptClaims.

Context `{C : Collaborators}.

Lemma resolved_hash args (k : string) :
  hash_key args = Some (AStr k) → k ≠ EmptyString →
  default_policy args = Some (AStr "hash") →
  resolved_default_policy args = PDict [("name", PStr "hash"); ("key", PStr k)].
Proof.
  intros Hk Hne Hdp. unfold resolved_default_policy. rewrite Hk, Hdp. cbn.
  rewrite bool_decide_false by done. by rewrite bool_decide_true.
Qed.

Lemma resolved_other args :
  ¬ (∃ k : string, hash_key args = Some (AStr k) ∧ k ≠ EmptyString
                   ∧ default_policy args = Some (AStr "hash")) →
  resolved_default_policy args = py_of_opt (default_policy args).
Proof.
  intros Hno. unfold resolved_default_policy.
  destruct (hash_key args) as [[k|]|] eqn:Hk; cbn; [|done..].
  destruct (decide (k = EmptyString)) as [->|Hne]; [done|].
  rewrite bool_decide_false by done. cbn.
  case_bool_decide as Hdp; [|done].
  destruct Hno. by exists k.
Qed.

(** C5: in every run of [process], the [default_policy] the constructor of
    the transformer receives is the mapping with name [hash] and the given
    key when a non-empty [--hash-key] comes with the default policy [hash];
    for any other combination of arguments it is the value of
    [--default-policy] as parsed. *)
Theorem process_default_policy (args : Namespace) (w : world)
    (dp pol : pyval) (ph : option argval) :
  EvConstruct dp pol ph ∈ events_of (process args) w →
  (∀ k : string, hash_key args = Some (AStr k) → k ≠ EmptyString →
        default_policy args = Some (AStr "hash") →
        dp = PDict [("name", PStr "hash"); ("key", PStr k)])
  ∧ (¬ (∃ k : string, hash_key args = Some (AStr k) ∧ k ≠ EmptyString
                      ∧ default_policy args = Some (AStr "hash")) →
     dp = py_of_opt (default_policy args)).
Proof.
  intros Hin. apply process_construct_args in Hin as (-> & _ & _).
  split.
  - intros k Hk Hne Hdp. by apply resolved_hash.
  - apply resolved_other.
Qed.

(** C2: in every run of [process] a document is loaded only after the
    transformer has been constructed, the constructor having returned; and
    when the constructor raises, [process] raises that same error with no
    document or collection loaded and the files as they were. *)
Theorem construct_before_load (args : Namespace) (w : world) :
  let dp := resolved_default_policy args in
  let ph := placeholder_file args in
  let evs := events_of (process args) w in
  (∀ f, EvLoadDoc f ∈ evs →
     ∃ pol t, reaches_construct args w pol
       ∧ PiiTransformer dp pol ph (fs w) = inr t
       ∧ before (EvConstruct dp pol ph) (EvLoadDoc f) evs)
  ∧ (∀ pol e, reaches_construct args w pol →
       PiiTransformer dp pol ph (fs w) = inl e →
       fst (process args w) = inl e
       ∧ fs (snd (process args w)) = fs w
       ∧ (∀ f, EvLoadDoc f ∉ evs) ∧ (∀ f, EvLoadPii f ∉ evs)).
Proof.
  cbn. split.
  - intros f Hin.
    destruct (get_policy (policy_file args) (mkLog (verbose args)) w)
      as [[e|pol] w1] eqn:Hgp.
    + destruct (get_policy_inv _ _ _ _ _ Hgp) as (_ & _ & evs0 & Htr & Hopen).
      rewrite (events_of_app _ _ evs0) in Hin
        by (by rewrite (process_policy_error _ _ _ _ Hgp)).
      rewrite Forall_forall in Hopen. by destruct (Hopen _ Hin).
    + destruct (process_stages _ _ _ _ Hgp) as (evs0 & _ & Hopen & Hrun).
      assert (Hno : EvLoadDoc f ∉ evs0).
      { intros H0. rewrite Forall_forall in Hopen. by destruct (Hopen _ H0). }
      exists pol. unfold process_run in Hrun.
      destruct (PiiTransformer _ _ _ _) as [e|t] eqn:Hctor.
      { destruct Hrun as (_ & _ & _ & Hev). rewrite Hev in Hin.
        apply elem_of_app in Hin as [?|Hin]; [done|].
        apply list_elem_of_singleton in Hin. done. }
      exists t. split; [unfold reaches_construct; by rewrite Hgp|].
      split; [done|].
      assert (Hf : ∀ rest, EvLoadDoc f ∈ evs0 ++ EvConstruct
                    (resolved_default_policy args) pol (placeholder_file args)
                    :: EvLoadDoc (infile args) :: rest →
                  EvLoadDoc f ∉ rest → f = infile args).
      { intros rest H1 H2. apply elem_of_app in H1 as [?|H1]; [done|].
        apply elem_of_cons in H1 as [?|H1]; [done|].
        apply elem_of_cons in H1 as [[= ->]|H1]; done. }
      assert (Hb : ∀ rest, before (EvConstruct (resolved_default_policy args)
                      pol (placeholder_file args)) (EvLoadDoc (infile args))
                    (evs0 ++ EvConstruct (resolved_default_policy args) pol
                       (placeholder_file args) :: EvLoadDoc (infile args) :: rest)).
      { intros rest. exists (length evs0), (S (length evs0)).
        split; [lia|]. split.
        - by rewrite lookup_app_r, Nat.sub_diag by lia.
        - rewrite lookup_app_r by lia.
          by replace (S (length evs0) - length evs0) with 1 by lia. }
      repeat case_match; destruct Hrun as (_ & _ & _ & Hev); rewrite Hev in *;
        (rewrite (Hf _ Hin); [apply Hb|]); not_in_list.
  - intros pol e Hreach Hctor. unfold reaches_construct in Hreach.
    destruct (get_policy (policy_file args) (mkLog (verbose args)) w)
      as [[e'|pol'] w1] eqn:Hgp; [done|]. cbn in Hreach. simplify_eq.
    destruct (process_stages _ _ _ _ Hgp) as (evs0 & _ & Hopen & Hrun).
    unfold process_run in Hrun. rewrite Hctor in Hrun.
    destruct Hrun as (Hr & Hfs & _ & Hev).
    split; [done|]. split; [done|]. rewrite Hev.
    rewrite Forall_forall in Hopen.
    split; intros f Hin; apply elem_of_app in Hin as [Hin|Hin];
      try (by destruct (Hopen _ Hin));
      by apply list_elem_of_singleton in Hin.
Qed.

(** C6: in every run of [process] the output document is dumped only after
    the transformer call has returned a document; and when the transformer
    call raises, [process] raises that error, no dump is made and the files
    are as they were. *)
Theorem dump_only_after_transform (args : Namespace) (w : world) :
  let evs := events_of (process args) w in
  (∀ f, EvDump f ∈ evs →
     ∃ t d p out, reaches_transform args w t d p
       ∧ transformer_call t d p = inr out
       ∧ before EvTransform (EvDump f) evs)
  ∧ (∀ t d p e, reaches_transform args w t d p →
       transformer_call t d p = inl e →
       fst (process args w) = inl e
       ∧ fs (snd (process args w)) = fs w
       ∧ (∀ f, EvDump f ∉ evs)).
Proof.
  cbn. split.
  - intros f Hin.
    destruct (get_policy (policy_file args) (mkLog (verbose args)) w)
      as [[e|pol] w1] eqn:Hgp.
    + destruct (get_policy_inv _ _ _ _ _ Hgp) as (_ & _ & evs0 & Htr & Hopen).
      rewrite (events_of_app _ _ evs0) in Hin
        by (by rewrite (process_policy_error _ _ _ _ Hgp)).
      rewrite Forall_forall in Hopen. by destruct (Hopen _ Hin).
    + destruct (process_stages _ _ _ _ Hgp) as (evs0 & _ & Hopen & Hrun).
      assert (Hno : EvDump f ∉ evs0).
      { intros H0. rewrite Forall_forall in Hopen. by destruct (Hopen _ H0). }
      assert (Hreach : reaches_construct args w pol)
        by (unfold reaches_construct; by rewrite Hgp).
      unfold process_run in Hrun.
      destruct (PiiTransformer _ _ _ _) as [e|t] eqn:Hctor;
        [|destruct (LocalSrcDocumentFile _ _) as [e|d] eqn:Hdoc;
          [|destruct (PiiCollectionLoader_load _ _) as [e|p] eqn:Hpii;
            [|destruct (transformer_call _ _ _) as [e|out] eqn:Hcall]]];
        destruct Hrun as (_ & _ & _ & Hev); rewrite Hev in *;
        apply elem_of_app in Hin as [?|Hin]; try done;
        try (by exfalso; revert Hin; not_in_list).
      exists t, d, p, out. split; [by exists pol|]. split; [done|].
      do 4 (apply elem_of_cons in Hin as [Hin|Hin]; [discriminate Hin|]).
      apply list_elem_of_singleton in Hin as [= ->].
      exists (3 + length evs0), (4 + length evs0). split; [lia|].
      split; rewrite lookup_app_r by lia.
      * by replace (3 + length evs0 - length evs0) with 3 by lia.
      * by replace (4 + length evs0 - length evs0) with 4 by lia.
  - intros t d p e (pol & Hreach & Hctor & Hdoc & Hpii) Hcall.
    unfold reaches_construct in Hreach.
    destruct (get_policy (policy_file args) (mkLog (verbose args)) w)
      as [[e'|pol'] w1] eqn:Hgp; [done|]. cbn in Hreach. simplify_eq.
    destruct (process_stages _ _ _ _ Hgp) as (evs0 & _ & Hopen & Hrun).
    unfold process_run in Hrun. rewrite Hctor, Hdoc, Hpii, Hcall in Hrun.
    destruct Hrun as (Hr & Hfs & _ & Hev).
    split; [done|]. split; [done|]. rewrite Hev.
    rewrite Forall_forall in Hopen.
    intros f Hin. apply elem_of_app in Hin as [Hin|Hin].
    + by destruct (Hopen _ Hin).
    + revert Hin. not_in_list.
Qed.

(** C8: [get_policy] returns [None], touching nothing, when the policy
    file argument is absent or empty ([None], the empty string, or the empty
    list the parser can leave); for a non-empty path its result is
    what [json.load] makes of the text of that file (the parsed content, or
    the error of [json.load], or the error of [open] when there is no such
    file); and whatever [get_policy] returns is the [policy] argument of the
    constructor call that [process] makes next. *)
Theorem get_policy_spec (args : Namespace) (w : world) :
  let pf := policy_file args in
  let log := mkLog (verbose args) in
  (pf = None ∨ pf = Some (AStr EmptyString) ∨ pf = Some ANil →
   get_policy pf log w = (inr PNone, w))
  ∧ (∀ path : string, pf = Some (AStr path) → path ≠ EmptyString →
       fst (get_policy pf log w)
       = match fs w !! path with
         | Some content => json_load content
         | None => inl (Exception "FileNotFoundError" path)
         end)
  ∧ (∀ j, fst (get_policy pf log w) = inr j →
       EvConstruct (resolved_default_policy args) j (placeholder_file args)
         ∈ events_of (process args) w).
Proof.
  cbn. split; [|split].
  - intros [->|[->| ->]]; reflexivity.
  - intros path -> Hne.
    unfold get_policy. cbn. rewrite bool_decide_false by done. cbn.
    unfold bind. log_step.
    unfold open_read, bind, emit, lift; cbn. by destruct (fs w !! path).
  - intros j Hj.
    destruct (get_policy (policy_file args) (mkLog (verbose args)) w)
      as [[e|pol] w1] eqn:Hgp; [done|]. cbn in Hj. simplify_eq.
    destruct (process_stages _ _ _ _ Hgp) as (evs0 & _ & Hopen & Hrun).
    unfold process_run in Hrun.
    repeat case_match; destruct Hrun as (_ & _ & _ & ->);
      apply elem_of_app; right; apply elem_of_cons; by left.
Qed.

End ScriptClaims.

(** * Properties of the parser *)

(** Induction on a list where the step may also use the tail of the tail,
    as [consume] does when an option takes the next string as its value. *)
Lemma list_ind_skip {A} (P : list A → Prop) :
  P [] →
  (∀ x l, P l → (∀ y l', l = y :: l' → P l') → P (x :: l)) →
  ∀ l, P l.
Proof.
  intros H0 Hs l.
  cut (P l ∧ ∀ y l', l = y :: l' → P l'); [tauto|].
  induction l as [|x l [IH1 IH2]]; split; try done.
  - by apply Hs.
  - by intros y l' [= <- <-].
Qed.

Section ParseFacts.

Context `{C : Collaborators}.












(** *** What a successful parse went through *)

Lemma bind_inr {A B} (m : M A) (k : A → M B) w b w' :
  bind m k w = (inr b, w') →
  ∃ a w1, m w = (inr a, w1) ∧ k a w1 = (inr b, w').
Proof.
  unfold bind. destruct (m w) as [[e|a] w1]; [done|]. intros H. by exists a, w1.
Qed.

Lemma parser_error_fails {A} msg w (a : A) w' :
  parser_error msg w ≠ (inr a, w').
Proof. done. Qed.

Lemma print_help_exit_fails {A} w (a : A) w' :
  print_help_exit w ≠ (inr a, w').
Proof. done. Qed.




Lemma assoc_elem_of {A} k (l : list (string * A)) a :
  assoc k l = Some a → (k, a) ∈ l.
Proof.
  induction l as [|[k' a'] l IH]; cbn; [done|].
  case_bool_decide as Hk.
  - intros [= ->]. subst. by left.
  - intros H. right. by apply IH.
Qed.









End ParseFacts.

Section MainClaims.

Context `{C : Collaborators}.


Lemma main_parse_error argv w e w1 :
  parse_args argv w = (inl e, w1) → main argv w = (inl e, w1).
Proof. intros H. unfold main, bind. by rewrite H. Qed.

Lemma main_parsed argv w args w1 :
  parse_args argv w = (inr args, w1) →
  main argv w
  = try_except (process args) isinstance_Exception
      (fun e =>
         print_stderr ["Error: " +:+ str_exn e] ;;;
         if reraise args then raise e else sys_exit 1) w1.
Proof. intros H. unfold main, bind at 1. by rewrite H. Qed.


(** C4 (as amended): when [process] raises an instance of [Exception],
    [main] writes the line [Error: ...] to stderr and then raises that same
    exception if [--reraise] was given and exits with status 1 otherwise; an
    exception outside the [Exception] hierarchy ([SystemExit],
    [KeyboardInterrupt]) leaves [main] as it is, with nothing written; in no
    case does [main] return normally. *)
Theorem main_surfaces_exceptions (argv : list string) (w : world)
    (args : Namespace) (w1 : world) (e : exn) (w2 : world) :
  parse_args argv w = (inr args, w1) →
  process args w1 = (inl e, w2) →
  (isinstance_Exception e = true →
     main argv w
     = (inl (if reraise args then e else SystemExit 1),
        World (fs w2) (stdout w2)
          (stderr w2 ++ [("Error: " +:+ str_exn e) +:+ newline]) (trace w2)))
  ∧ (isinstance_Exception e = false → main argv w = (inl e, w2))
  ∧ (∀ u, fst (main argv w) ≠ inr u).
Proof.
  intros Hp Hproc. rewrite (main_parsed _ _ _ _ Hp).
  unfold try_except. rewrite Hproc.
  split; [|split].
  - intros ->. unfold bind, print_stderr; cbn. by destruct (reraise args).
  - by intros ->.
  - intros u. destruct (isinstance_Exception e); [|done].
    unfold bind, print_stderr; cbn. by destruct (reraise args).
Qed.

End MainClaims.

(** * Properties of the engine *)

Section EngineFacts.

Import Engine.

Lemma tree_ind_nested (P : tree → Prop) :
  (∀ c, P (Leaf c)) →
  (∀ meta children, Forall P children → P (Node meta children)) →
  ∀ t, P t.
Proof.
  intros Hleaf Hnode. fix IH 1. intros [c|meta children]; [apply Hleaf|].
  apply Hnode. induction children as [|t ts IHts]; constructor; [apply IH|done].
Qed.

Lemma map_err_inr {A B} (f : A → error + B) l l' :
  map_err f l = inr l' → Forall2 (λ x y, f x = inr y) l l'.
Proof.
  revert l'. induction l as [|x l IH]; intros l'; cbn.
  - intros [= <-]. constructor.
  - destruct (f x) as [|y] eqn:Hx; [done|].
    destruct (map_err f l) as [|ys]; [done|]. intros [= <-].
    constructor; [done|by apply IH].
Qed.

Section Shape.

Context (f : chunk → error + chunk).
Context (Hid : ∀ c c', f c = inr c' → c_id c' = c_id c).

Lemma map_err_blank l l' :
  map_err f l = inr l' → map blank l' = map blank l.
Proof.
  intros H%map_err_inr. induction H as [|c c' l l' Hc _ IH]; [done|].
  cbn. rewrite IH. unfold blank. by rewrite (Hid _ _ Hc).
Qed.

Lemma map_tree_err_blank t :
  ∀ t', map_tree_err f t = inr t' → map_tree blank t' = map_tree blank t.
Proof.
  induction t as [c|meta children IH] using tree_ind_nested; intros t'; cbn.
  - destruct (f c) as [|c'] eqn:Hc; [done|]. intros [= <-]. cbn.
    unfold blank. by rewrite (Hid _ _ Hc).
  - destruct (map_err (map_tree_err f) children) as [|children'] eqn:Hm; [done|].
    intros [= <-]. cbn. f_equal.
    apply map_err_inr in Hm.
    induction Hm as [|x y l l' Hxy _ IHl]; [done|].
    apply Forall_cons in IH as [IHx IHrest].
    cbn. rewrite (IHx _ Hxy). f_equal. by apply IHl.
Qed.

Lemma map_doc_err_shape d d' :
  map_doc_err f d = inr d' → shape d' = shape d.
Proof.
  destruct d as [chunks|root|rows]; cbn.
  - destruct (map_err f chunks) as [|chunks'] eqn:Hm; [done|].
    intros [= <-]. unfold shape; cbn. f_equal. by apply map_err_blank.
  - destruct (map_tree_err f root) as [|root'] eqn:Hm; [done|].
    intros [= <-]. unfold shape; cbn. f_equal. by apply map_tree_err_blank.
  - destruct (map_err (map_row_err f) rows) as [|rows'] eqn:Hm; [done|].
    intros [= <-]. unfold shape; cbn. f_equal.
    apply map_err_inr in Hm.
    induction Hm as [|[r cells] [r' cells'] l l' Hrow _ IH]; [done|].
    cbn. rewrite IH. f_equal.
    unfold map_row_err in Hrow; cbn in Hrow.
    destruct (map_err (map_cell_err f) cells) as [|cells''] eqn:Hc; [done|].
    injection Hrow as <- <-. f_equal.
    apply map_err_inr in Hc. clear IH.
    induction Hc as [|[k c] [k' c'] m m' Hcell _ IHc]; [done|].
    cbn. rewrite IHc. f_equal.
    unfold map_cell_err in Hcell; cbn in Hcell.
    destruct (f c) as [|c''] eqn:Hfc; [done|].
    injection Hcell as <- <-. unfold blank. by rewrite (Hid _ _ Hfc).
Qed.

End Shape.

Section WithDigest.

Context (digest : string → string → string).

Lemma rewrite_chunk_id t occs c c' :
  rewrite_chunk digest t occs c = inr c' → c_id c' = c_id c.
Proof.
  unfold rewrite_chunk. destruct (splice_all _ _ _ _); [done|].
  by intros [= <-].
Qed.

End WithDigest.

End EngineFacts.

(** C1: whenever the transformer returns a document, for any variant
    (sequence, tree or table) and any occurrence collection, the returned
    document has the shape of the input: the same variant, chunk ids,
    nesting, rows, columns and order; only chunk texts may differ. *)
Theorem apply_preserves_shape (digest : string → string → string)
    (t : Engine.trf) (d d' : Engine.doc) (occs : list Engine.occurrence) :
  Engine.apply digest t d occs = inr d' → Engine.shape d' = Engine.shape d.
Proof.
  unfold Engine.apply. destruct (Engine.validate d occs); [|done].
  apply map_doc_err_shape. intros c c'. apply rewrite_chunk_id.
Qed.

Section Overlap.

Import Engine.

(** The grouping gives each chunk id the occurrences that name it, in
    collection order. *)
Lemma occs_of_group occs id :
  occs_of (group occs) id = filter (λ o, o_chunk o = id) occs.
Proof.
  unfold occs_of. induction occs as [|o occs IH]; [done|].
  change (group (o :: occs))
    with (<[o_chunk o := o :: default [] (group occs !! o_chunk o)]> (group occs)).
  rewrite filter_cons. destruct (decide (o_chunk o = id)) as [->|Hne].
  - rewrite lookup_insert_eq. cbn. by rewrite IH.
  - by rewrite lookup_insert_ne.
Qed.

(** In a list that passes [disjoint_desc], every later span ends at or
    before the start of every earlier one. *)
Lemma disjoint_desc_tail a l :
  disjoint_desc (a :: l) = true →
  disjoint_desc l = true
  ∧ ∀ b, b ∈ l → (o_start b + o_length b ≤ o_start a)%nat.
Proof.
  revert a. induction l as [|b l IH]; intros a H.
  - split; [done|]. by intros b ?%elem_of_nil.
  - cbn [disjoint_desc] in H.
    apply andb_prop in H as [[Hlt Hle]%andb_prop Hrest].
    apply Nat.ltb_lt in Hlt. apply Nat.leb_le in Hle.
    split; [done|]. intros c [->|Hc]%elem_of_cons; [done|].
    destruct (IH _ Hrest) as [_ Hb]. specialize (Hb _ Hc). lia.
Qed.

Lemma disjoint_desc_sound l o1 o2 :
  disjoint_desc l = true → o1 ∈ l → o2 ∈ l → o1 ≠ o2 → ¬ overlap o1 o2.
Proof.
  induction l as [|a l IH]; intros Hd H1 H2 Hne; [by apply elem_of_nil in H1|].
  destruct (disjoint_desc_tail _ _ Hd) as [Hl Ha].
  apply elem_of_cons in H1 as [->|H1]; apply elem_of_cons in H2 as [->|H2].
  - done.
  - intros (p & Hp1 & Hp2). specialize (Ha _ H2). lia.
  - intros (p & Hp1 & Hp2). specialize (Ha _ H1). lia.
  - by apply IH.
Qed.

Lemma check_chunk_no_overlap text occs o1 o2 :
  check_chunk text occs = true →
  o1 ∈ occs → o2 ∈ occs → o1 ≠ o2 → ¬ overlap o1 o2.
Proof.
  unfold check_chunk, sort_desc. intros [_ Hd]%andb_prop H1 H2.
  apply (disjoint_desc_sound _ _ _ Hd);
    by rewrite merge_sort_Permutation.
Qed.

(** A list that passes [disjoint_desc] has strictly descending starts, so
    no occurrence is in it twice. *)
Lemma disjoint_desc_starts a l :
  disjoint_desc (a :: l) = true → ∀ b, b ∈ l → (o_start b < o_start a)%nat.
Proof.
  revert a. induction l as [|b l IH]; intros a H c Hc;
    [by apply elem_of_nil in Hc|].
  cbn [disjoint_desc] in H.
  apply andb_prop in H as [[Hlt _]%andb_prop Hrest].
  apply Nat.ltb_lt in Hlt.
  apply elem_of_cons in Hc as [->|Hc]; [done|].
  specialize (IH _ Hrest _ Hc). lia.
Qed.

Lemma disjoint_desc_NoDup l : disjoint_desc l = true → NoDup l.
Proof.
  induction l as [|a l IH]; intros H; [constructor|].
  destruct (disjoint_desc_tail _ _ H) as [Hl _].
  constructor; [|by apply IH].
  intros Ha. pose proof (disjoint_desc_starts _ _ H _ Ha). lia.
Qed.

(** An element that passes the filter, at two positions of the list, is
    twice in the filtered list. *)
Lemma filter_twice {A} (P : A → Prop) `{∀ x, Decision (P x)} (l : list A) i j x :
  i ≠ j → l !! i = Some x → l !! j = Some x → P x → ¬ NoDup (filter P l).
Proof.
  revert i j. induction l as [|a l IH]; intros i j Hij Hi Hj HP Hnd; [done|].
  rewrite filter_cons in Hnd.
  destruct i as [|i], j as [|j]; cbn in Hi, Hj; simplify_eq.
  - rewrite decide_True in Hnd by done. apply NoDup_cons in Hnd as [Hx _].
    apply Hx, list_elem_of_filter. split; [done|].
    by eapply list_elem_of_lookup_2.
  - rewrite decide_True in Hnd by done. apply NoDup_cons in Hnd as [Hx _].
    apply Hx, list_elem_of_filter. split; [done|].
    by eapply list_elem_of_lookup_2.
  - apply (IH i j); [congruence|done..|].
    destruct (decide (P a)); [by apply NoDup_cons in Hnd as [_ ?]|done].
Qed.

Lemma check_chunk_NoDup text occs : check_chunk text occs = true → NoDup occs.
Proof.
  unfold check_chunk, sort_desc. intros [_ Hd%disjoint_desc_NoDup]%andb_prop.
  by rewrite merge_sort_Permutation in Hd.
Qed.

Lemma validate_chunk d occs c :
  validate d occs = true → c ∈ chunks_of d →
  check_chunk (c_text c) (filter (λ o, o_chunk o = c_id c) occs) = true.
Proof.
  unfold validate. intros [_ Hall]%andb_prop Hc.
  rewrite forallb_forall in Hall. rewrite <- occs_of_group.
  apply Hall. by apply list_elem_of_In.
Qed.

End Overlap.

(** C3: when two occurrences of the collection (two entries, at different
    positions) belong to the same chunk of the document and their ranges
    [start, start+length) share a position, applying the transformer fails
    with [DataIntegrityError]; no document is returned. *)
Theorem overlap_rejected (digest : string → string → string)
    (t : Engine.trf) (d : Engine.doc) (occs : list Engine.occurrence)
    (c : Engine.chunk) (i j : nat) (o1 o2 : Engine.occurrence) :
  c ∈ Engine.chunks_of d →
  occs !! i = Some o1 → occs !! j = Some o2 → i ≠ j →
  Engine.o_chunk o1 = Engine.c_id c →
  Engine.o_chunk o2 = Engine.c_id c →
  Engine.overlap o1 o2 →
  Engine.apply digest t d occs = inl Engine.DataIntegrityError.
Proof.
  intros Hc H1 H2 Hij Hc1 Hc2 Hov. unfold Engine.apply.
  destruct (Engine.validate d occs) eqn:Hv; [|done].
  exfalso. pose proof (validate_chunk _ _ _ Hv Hc) as Hchk.
  destruct (decide (o1 = o2)) as [<-|Hne].
  - apply check_chunk_NoDup in Hchk. revert Hchk.
    by apply (filter_twice _ _ i j o1).
  - revert Hov. apply (check_chunk_no_overlap _ _ _ _ Hchk); [..|done];
      apply list_elem_of_filter; (split; [done|]);
      by eapply list_elem_of_lookup_2.
Qed.


(** * The theorems at sample inputs *)

(** The shape of a two-leaf tree survives the rewrite of one leaf. *)
Lemma apply_preserves_shape_witness :
  Engine.shape
    (Engine.Tree
       (Engine.Node "root"
          [Engine.Leaf (Engine.mkChunk "c1" "Contact <PERSON> at #k1:jane@x.com");
           Engine.Leaf chunk2]))
  = Engine.shape sample_tree.
Proof.
  apply (apply_preserves_shape sample_digest sample_trf sample_tree _
           [occ_person; occ_email]).
  vm_compute. reflexivity.
Defined.

(** Two spans that share position 15 of chunk [c1] are rejected. *)
Lemma overlap_rejected_witness :
  Engine.apply sample_digest sample_trf sample_tree [occ_person; occ_clash]
  = inl Engine.DataIntegrityError.
Proof.
  apply (overlap_rejected sample_digest sample_trf sample_tree
           [occ_person; occ_clash] chunk1 0 1 occ_person occ_clash).
  - cbn. apply elem_of_cons. by left.
  - reflexivity.
  - reflexivity.
  - lia.
  - reflexivity.
  - reflexivity.
  - exists 15. cbn. lia.
Defined.


(** With [--default-policy hash] and [--hash-key k], the constructor gets
    the hash mapping. *)
Lemma process_default_policy_witness :
  (∀ k : string, hash_key hash_args = Some (AStr k) → k ≠ EmptyString →
        default_policy hash_args = Some (AStr "hash") →
        PDict [("name", PStr "hash"); ("key", PStr "k")]
        = PDict [("name", PStr "hash"); ("key", PStr k)])
  ∧ (¬ (∃ k : string, hash_key hash_args = Some (AStr k) ∧ k ≠ EmptyString
                      ∧ default_policy hash_args = Some (AStr "hash")) →
     PDict [("name", PStr "hash"); ("key", PStr "k")]
     = py_of_opt (default_policy hash_args)).
Proof.
  apply (process_default_policy (C := demo None None None) hash_args demo_world
           _ (PDict []) None).
  apply (list_elem_of_lookup_2 _ 1). vm_compute. reflexivity.
Defined.

(** A run with working collaborators constructs before it loads; a run
    whose constructor raises [ConfigError] loads nothing. *)
Lemma construct_before_load_witness :
  before (EvConstruct PNone PNone None) (EvLoadDoc (AStr "doc.yml"))
    (events_of (process (C := demo None None None) quiet_args) demo_world)
  ∧ fst (process (C := demo (Some config_error) None None) quiet_args demo_world)
    = inl config_error.
Proof.
  split.
  - destruct (construct_before_load (C := demo None None None)
                quiet_args demo_world) as [Hload _].
    destruct (Hload (AStr "doc.yml")) as (pol & t & Hreach & _ & Hbefore).
    { apply (list_elem_of_lookup_2 _ 1). vm_compute. reflexivity. }
    vm_compute in Hreach. injection Hreach as <-. exact Hbefore.
  - destruct (construct_before_load (C := demo (Some config_error) None None)
                quiet_args demo_world) as [_ Hraise].
    destruct (Hraise PNone config_error) as (Hres & _).
    + vm_compute. reflexivity.
    + reflexivity.
    + exact Hres.
Defined.

(** A run with working collaborators dumps after the transformer call; a
    run whose transformer call raises dumps nothing and leaves the files. *)
Lemma dump_only_after_transform_witness :
  before EvTransform (EvDump (AStr "out.yml"))
    (events_of (process (C := demo None None None) quiet_args) demo_world)
  ∧ fs (snd (process (C := demo None None (Some integrity_error))
               quiet_args demo_world)) = demo_files.
Proof.
  split.
  - destruct (dump_only_after_transform (C := demo None None None)
                quiet_args demo_world) as [Hdump _].
    destruct (Hdump (AStr "out.yml")) as (t & d & p & out & _ & _ & Hbefore).
    { apply (list_elem_of_lookup_2 _ 4). vm_compute. reflexivity. }
    exact Hbefore.
  - destruct (dump_only_after_transform
                (C := demo None None (Some integrity_error))
                quiet_args demo_world) as [_ Hraise].
    destruct (Hraise tt "Contact Jane Doe" "[]" integrity_error)
      as (_ & Hfs & _).
    + exists PNone. repeat split; vm_compute; reflexivity.
    + reflexivity.
    + exact Hfs.
Defined.



(** No policy file gives [None]; [policy.json], holding an empty object,
    gives the empty mapping, which the constructor then receives. *)
Lemma get_policy_spec_witness :
  get_policy (C := demo None None None) None (mkLog false) demo_world
  = (inr PNone, demo_world)
  ∧ fst (get_policy (C := demo None None None) (Some (AStr "policy.json"))
           (mkLog false) demo_world) = inr (PDict [])
  ∧ EvConstruct (PDict [("name", PStr "hash"); ("key", PStr "k")]) (PDict []) None
      ∈ events_of (process (C := demo None None None) hash_args) demo_world.
Proof.
  split; [|split].
  - destruct (get_policy_spec (C := demo None None None) quiet_args demo_world)
      as (Hnone & _ & _).
    apply Hnone. by left.
  - destruct (get_policy_spec (C := demo None None None) hash_args demo_world)
      as (_ & Hfile & _).
    change (fst (get_policy (C := demo None None None) (policy_file hash_args)
                   (mkLog (verbose hash_args)) demo_world) = inr (PDict [])).
    rewrite (Hfile "policy.json") by done. vm_compute. reflexivity.
  - destruct (get_policy_spec (C := demo None None None) hash_args demo_world)
      as (_ & _ & Hpass).
    apply (Hpass (PDict [])). vm_compute. reflexivity.
Defined.

(** The transformer call raises [DataIntegrityError]: without [--reraise]
    the error line is written and [main] exits with status 1; with
    [--reraise] the same exception comes out of [main]. *)
Lemma main_surfaces_exceptions_witness :
  main (C := demo None None (Some integrity_error))
    ["-q"; "doc.yml"; "pii.json"; "out.yml"] demo_world
  = (inl (SystemExit 1),
     World demo_files [] ["Error: overlap" +:+ newline]
       [EvConstruct PNone PNone None; EvLoadDoc (AStr "doc.yml");
        EvLoadPii (AStr "pii.json"); EvTransform])
  ∧ fst (main (C := demo None None (Some integrity_error))
           ["-q"; "--reraise"; "doc.yml"; "pii.json"; "out.yml"] demo_world)
    = inl integrity_error.
Proof.
  split.
  - destruct (main_surfaces_exceptions (C := demo None None (Some integrity_error))
                ["-q"; "doc.yml"; "pii.json"; "out.yml"] demo_world
                quiet_args demo_world integrity_error
                (World demo_files [] []
                   [EvConstruct PNone PNone None; EvLoadDoc (AStr "doc.yml");
                    EvLoadPii (AStr "pii.json"); EvTransform]))
      as (Hexc & _ & _); [vm_compute; reflexivity..|].
    rewrite Hexc by reflexivity. reflexivity.
  - destruct (main_surfaces_exceptions (C := demo None None (Some integrity_error))
                ["-q"; "--reraise"; "doc.yml"; "pii.json"; "out.yml"] demo_world
                (mkNamespace (AStr "doc.yml") (AStr "pii.json") (AStr "out.yml")
              None None None None
                   false true false false)
                demo_world integrity_error
                (World demo_files [] []
                   [EvConstruct PNone PNone None; EvLoadDoc (AStr "doc.yml");
                    EvLoadPii (AStr "pii.json"); EvTransform]))
      as (Hexc & _ & _); [vm_compute; reflexivity..|].
    rewrite Hexc by reflexivity. reflexivity.
Defined.

(** A [KeyboardInterrupt] while the document is loaded, without
    [--reraise]: [main] writes nothing and does not exit with status 1, so
    it does not report every exception the way the specification states. *)
Lemma main_interrupt_unreported :
  ¬ reports_every_exception (C := demo None (Some KeyboardInterrupt) None)
      ["-q"; "doc.yml"; "pii.json"; "out.yml"] demo_world.
Proof.
  intros Hall.
  destruct (Hall quiet_args demo_world KeyboardInterrupt
              (World demo_files [] []
                 [EvConstruct PNone PNone None; EvLoadDoc (AStr "doc.yml")]))
    as [_ Hexit]; [vm_compute; reflexivity..|].
  vm_compute in Hexit. discriminate Hexit.
Qed.

(** * Further properties of the script *)

Section ProcessRuns.

Context `{C : Collaborators}.

(** [get_policy], step by step. *)
Lemma get_policy_run args w :
  let r := get_policy (policy_file args) (mkLog (verbose args)) w in
  fst r = policy_result args w
  ∧ fs (snd r) = fs w ∧ stdout (snd r) = stdout w
  ∧ trace (snd r) = trace w ++ policy_events args
  ∧ stderr (snd r)
    = stderr w ++ (if verbose args && truthy (policy_file args)
                   then [log_line ". Loading policy file:"
                           (path_of (policy_file args))]
                   else []).
Proof.
  unfold get_policy, policy_result, policy_events.
  destruct (truthy (policy_file args)); cbn.
  - unfold bind, Log_call, open_read, bind, emit, lift, print_stderr; cbn.
    destruct (verbose args); cbn;
      destruct (fs w !! path_of (policy_file args)); cbn;
      rewrite ?app_nil_r, ?andb_false_r; by repeat split.
  - rewrite andb_false_r, !app_nil_r. by repeat split.
Qed.

Lemma reaches_construct_result args w pol :
  reaches_construct args w pol ↔ policy_result args w = inr pol.
Proof.
  unfold reaches_construct.
  by destruct (get_policy_run args w) as (-> & _).
Qed.

Lemma process_after_policy args w pol :
  reaches_construct args w pol → process_run args w pol (policy_events args).
Proof.
  unfold reaches_construct. intros Hr.
  destruct (get_policy (policy_file args) (mkLog (verbose args)) w)
    as [r w1] eqn:Hgp. cbn in Hr. subst r.
  destruct (process_stages _ _ _ _ Hgp) as (evs0 & Hev & _ & Hrun).
  destruct (get_policy_run args w) as (_ & _ & _ & Htr & _).
  rewrite (events_of_app _ _ _ Htr) in Hev. by subst evs0.
Qed.

Lemma process_policy_raises args w e :
  policy_result args w = inl e →
  fst (process args w) = inl e ∧ fs (snd (process args w)) = fs w
  ∧ events_of (process args) w = policy_events args.
Proof.
  intros Hr.
  destruct (get_policy_run args w) as (Hres & Hfs & _ & Htr & _).
  destruct (get_policy (policy_file args) (mkLog (verbose args)) w)
    as [r w1] eqn:Hgp. cbn in Hres, Hfs, Htr. rewrite Hr in Hres. subst r.
  rewrite (events_of_app _ _ (policy_events args))
    by (by rewrite (process_policy_error _ _ _ _ Hgp)).
  by rewrite (process_policy_error _ _ _ _ Hgp).
Qed.

End ProcessRuns.

Lemma policy_events_open `{C : Collaborators} args e :
  (∀ p, e ≠ EvOpen p) → e ∉ policy_events args.
Proof.
  intros He. unfold policy_events. case_match; [|by intros ?%elem_of_nil].
  intros ->%list_elem_of_singleton. by eapply He.
Qed.

(** Closes [e ∉ policy_events args ++ l], possibly under a binder for a
    path, when [e] is no file opening and [l] is a literal list of events of
    other kinds. *)
Ltac absent_after_policy :=
  lazymatch goal with
  | |- ∀ _ : argval, _ => intros ?
  | _ => idtac
  end;
  let Hin := fresh "Hin" in
  intros [Hin|Hin]%elem_of_app;
  [by eapply policy_events_open in Hin|revert Hin; not_in_list].

Section ProcessExtras.

Context `{C : Collaborators}.

(** X1: in every run of [process] the collaborator calls are the read of
    the policy file, when one is given, followed by an initial part of the
    fixed sequence constructor, document loader, collection loader,
    transformer call, dump: no call is made twice or out of this order. *)
Theorem process_calls_in_order (args : Namespace) (w : world) :
  ∃ n pol, events_of (process args) w
           = policy_events args ++ take n (script args pol).
Proof.
  destruct (policy_result args w) as [e|pol] eqn:Hr.
  - exists 0, PNone. rewrite take_0, app_nil_r.
    by apply process_policy_raises in Hr as (_ & _ & ->).
  - apply reaches_construct_result, process_after_policy in Hr.
    unfold process_run in Hr.
    repeat case_match; destruct Hr as (_ & _ & _ & ->).
    + by exists 1, pol.
    + by exists 2, pol.
    + by exists 3, pol.
    + by exists 4, pol.
    + by exists 5, pol.
Qed.

(** X2: when the document loader raises, after the constructor returned,
    [process] raises that same error with the files as they were: the
    collection is not loaded, the transformer is not called and nothing is
    dumped; when the collection loader raises, after the document was
    loaded, the same holds from the transformer call on. *)
Theorem load_errors_stop_process (args : Namespace) (w : world) :
  let dp := resolved_default_policy args in
  let ph := placeholder_file args in
  let evs := events_of (process args) w in
  (∀ pol t e, reaches_construct args w pol →
     PiiTransformer dp pol ph (fs w) = inr t →
     LocalSrcDocumentFile (infile args) (fs w) = inl e →
     fst (process args w) = inl e ∧ fs (snd (process args w)) = fs w
     ∧ (∀ f, EvLoadPii f ∉ evs) ∧ (EvTransform ∉ evs)
     ∧ (∀ f, EvDump f ∉ evs))
  ∧ (∀ pol t d e, reaches_construct args w pol →
       PiiTransformer dp pol ph (fs w) = inr t →
       LocalSrcDocumentFile (infile args) (fs w) = inr d →
       PiiCollectionLoader_load (pii args) (fs w) = inl e →
       fst (process args w) = inl e ∧ fs (snd (process args w)) = fs w
       ∧ (EvTransform ∉ evs) ∧ (∀ f, EvDump f ∉ evs)).
Proof.
  cbn. split.
  - intros pol t e Hreach Hctor Hdoc.
    apply process_after_policy in Hreach. unfold process_run in Hreach.
    rewrite Hctor, Hdoc in Hreach. destruct Hreach as (Hr & Hfs & _ & ->).
    split; [done|]. split; [done|].
    repeat split; absent_after_policy.
  - intros pol t d e Hreach Hctor Hdoc Hpii.
    apply process_after_policy in Hreach. unfold process_run in Hreach.
    rewrite Hctor, Hdoc, Hpii in Hreach. destruct Hreach as (Hr & Hfs & _ & ->).
    split; [done|]. split; [done|].
    repeat split; absent_after_policy.
Qed.

(** X3: when the policy file is named but missing, or [json.load] raises
    on its text, [process] raises that error before anything else happens:
    the only call made is the opening of the policy file, no transformer is
    constructed and the files are as they were. *)
Theorem bad_policy_file_stops_process (args : Namespace) (w : world)
    (path : string) (e : exn) :
  policy_file args = Some (AStr path) → path ≠ EmptyString →
  match fs w !! path with
  | Some content => json_load content
  | None => inl (Exception "FileNotFoundError" path)
  end = inl e →
  fst (process args w) = inl e
  ∧ fs (snd (process args w)) = fs w
  ∧ events_of (process args) w = [EvOpen path].
Proof.
  intros Hpf Hne Hres.
  assert (Htruthy : truthy (policy_file args) = true).
  { rewrite Hpf. cbn. by rewrite bool_decide_false. }
  destruct (process_policy_raises args w e) as (Hr & Hfs & Hev).
  { unfold policy_result. rewrite Htruthy, Hpf. exact Hres. }
  split; [done|]. split; [done|].
  rewrite Hev. unfold policy_events. by rewrite Htruthy, Hpf.
Qed.

(** X4: when every collaborator returns, [process] makes all five calls in
    order, its result is the result of dumping the document the transformer
    returned for the loaded document and collection, and the files are the
    ones that dump left. *)
Theorem process_success (args : Namespace) (w : world)
    (t : transformer) (d out : document) (p : piicollection) :
  reaches_transform args w t d p →
  transformer_call t d p = inr out →
  fst (process args w) = fst (document_dump out (outfile args) (fs w))
  ∧ fs (snd (process args w)) = snd (document_dump out (outfile args) (fs w))
  ∧ ∃ pol, events_of (process args) w = policy_events args ++ script args pol.
Proof.
  intros (pol & Hreach & Hctor & Hdoc & Hpii) Hcall.
  apply process_after_policy in Hreach. unfold process_run in Hreach.
  rewrite Hctor, Hdoc, Hpii, Hcall in Hreach.
  destruct Hreach as (Hr & Hfs & _ & Hev).
  split; [done|]. split; [done|]. by exists pol.
Qed.

End ProcessExtras.

(** Closes one branch of the symbolic run in [process_written], once the
    number of lines is chosen. *)
Ltac split_truthy :=
  try match goal with |- context [truthy ?o] => destruct (truthy o) end.

Ltac run_written :=
  split;
  [ split_truthy; cbn; rewrite <- ?app_assoc; reflexivity
  | let H := fresh "H" in
    intros ? ? ? ? H ?;
    first [ match goal with Hp : ∀ t d p, _ → _ |- _ =>
              apply Hp in H as (? & ? & ?); simplify_eq
            end; fail
          | split_truthy; reflexivity ] ].

Section ProcessStreams.

Context `{C : Collaborators}.

(** What a run of [process] writes: nothing on stdout; on stderr, when
    verbose, an initial part of the progress lines, all of them when every
    collaborator returns. *)
Lemma process_written args w :
  stdout (snd (process args w)) = stdout w
  ∧ ∃ k, stderr (snd (process args w))
         = stderr w ++ (if verbose args then take k (progress_lines args) else [])
       ∧ (∀ t d p out, reaches_transform args w t d p →
            transformer_call t d p = inr out →
            k = length (progress_lines args)).
Proof.
  destruct (get_policy_run args w) as (Hres & Hfs & Hout & _ & Herr).
  unfold process, bind.
  destruct (get_policy (policy_file args) (mkLog (verbose args)) w)
    as [[e|pol] w1] eqn:Hgp; cbn in Hres, Hfs, Hout, Herr.
  { cbn. split; [done|].
    exists (if truthy (policy_file args) then 1 else 0). split.
    - rewrite Herr. unfold progress_lines.
      by destruct (verbose args), (truthy (policy_file args)).
    - intros t d p out (pol & Hreach & _) _.
      apply reaches_construct_result in Hreach. congruence. }
  assert (Hpol : ∀ t d p, reaches_transform args w t d p →
            PiiTransformer (resolved_default_policy args) pol
              (placeholder_file args) (fs w) = inr t
            ∧ LocalSrcDocumentFile (infile args) (fs w) = inr d
            ∧ PiiCollectionLoader_load (pii args) (fs w) = inr p).
  { intros t d p (pol' & Hreach & H1 & H2 & H3).
    apply reaches_construct_result in Hreach.
    assert (pol' = pol) as -> by congruence. done. }
  unfold call_fs, call_dump, Log_call, bind, emit, lift, print_stderr; cbn.
  rewrite Hfs.
  destruct (PiiTransformer _ _ _ _) as [e|t] eqn:Hctor; cbn.
  { split; [done|].
    exists (if truthy (policy_file args) then 1 else 0). split.
    - rewrite Herr. unfold progress_lines.
      by destruct (verbose args), (truthy (policy_file args)).
    - intros t d p out (H1 & _)%Hpol _. congruence. }
  destruct (verbose args) eqn:Hv; cbn;
    (destruct (LocalSrcDocumentFile _ _) as [e|d] eqn:Hdoc; cbn;
     [|destruct (PiiCollectionLoader_load _ _) as [e|p] eqn:Hpii; cbn;
       [|destruct (transformer_call _ _ _) as [e|out] eqn:Hcall; cbn;
         [|destruct (document_dump _ _ _) as [r fs'] eqn:Hdump; cbn]]]);
    (split; [done|]); rewrite Herr; unfold progress_lines; cbn.
  all: first
    [ exists ((if truthy (policy_file args) then 1 else 0) + 1); run_written
    | exists ((if truthy (policy_file args) then 1 else 0) + 2); run_written
    | exists ((if truthy (policy_file args) then 1 else 0) + 3); run_written ].
Qed.

End ProcessStreams.

Section ProcessStreamExtras.

Context `{C : Collaborators}.

(** X5: [process] never writes to stdout, and in a quiet run
    ([verbose] false, as after [-q]) it writes nothing to stderr either:
    whatever happens, the two streams are as they were. *)
Theorem process_quiet_run (args : Namespace) (w : world) :
  stdout (snd (process args w)) = stdout w
  ∧ (verbose args = false → stderr (snd (process args w)) = stderr w).
Proof.
  destruct (process_written args w) as (Hout & k & Herr & _).
  split; [done|]. intros Hq. rewrite Herr, Hq. apply app_nil_r.
Qed.

(** X6: in a verbose run in which every collaborator returns, [process]
    writes to stderr exactly the progress lines, in this order: the policy
    file line when a policy file is given, then the document line, the
    collection line and the processing line, each with its path. *)
Theorem process_progress_lines (args : Namespace) (w : world)
    (t : transformer) (d out : document) (p : piicollection) :
  verbose args = true →
  reaches_transform args w t d p →
  transformer_call t d p = inr out →
  stderr (snd (process args w)) = stderr w ++ progress_lines args.
Proof.
  intros Hv Hreach Hcall.
  destruct (process_written args w) as (_ & k & Herr & Hk).
  rewrite Herr, Hv, (Hk _ _ _ _ Hreach Hcall). by rewrite firstn_all.
Qed.

End ProcessStreamExtras.

(** * Further properties of the parser *)

Section TidyParser.

Context `{C : Collaborators}.

Lemma tidy_ret {A} (a : A) : tidy (ret a).
Proof. by intros w r w' [= <- <-]. Qed.

Lemma tidy_bind {A B} (m : M A) (k : A → M B) :
  tidy m → (∀ a, tidy (k a)) → tidy (bind m k).
Proof.
  intros Hm Hk w r w'. unfold bind.
  destruct (m w) as [[e|a] w1] eqn:Hmw.
  - intros [= <- <-]. exact (Hm _ _ _ Hmw).
  - intros Hkw. pose proof (Hm _ _ _ Hmw) as Hw. cbn in Hw. subst w1.
    exact (Hk _ _ _ _ Hkw).
Qed.

Lemma tidy_parser_error {A} msg : tidy (@parser_error A msg).
Proof.
  intros w r w' [= <- <-]. cbn. split; [done|]. split; [done|]. left.
  split; [done|]. split; [done|].
  eexists [_; _]. split; [done|]. by rewrite <- app_assoc.
Qed.

Lemma tidy_print_help_exit {A} : tidy (@print_help_exit A).
Proof.
  intros w r w' [= <- <-]. cbn. split; [done|]. split; [done|]. right.
  split; [done|]. split; [done|]. by eexists.
Qed.

Lemma tidy_take_store d ch v st : tidy (take_store d ch v st).
Proof.
  unfold take_store. destruct v as [s|]; [|apply tidy_ret].
  destruct (check_value ch s).
  - apply tidy_ret.
  - apply tidy_parser_error.
Qed.

Lemma tidy_run_flags acts st : tidy (run_flags acts st).
Proof.
  revert st. induction acts as [|[d ch|f b|] acts IH]; intros st; cbn.
  - apply tidy_ret.
  - apply tidy_parser_error.
  - apply IH.
  - apply tidy_print_help_exit.
Qed.

Lemma tidy_consume toks st : tidy (consume toks st).
Proof.
  revert st. induction toks as [|[s t] rest IH IH2] using list_ind_skip;
    intros st; cbn; [apply tidy_ret|].
  destruct t as [| |[[d ch|f b|]|] o [e|]]; try apply IH.
  - destruct (ps_after_pos st); [apply IH|].
    destruct rest as [|[v [| |]] rest']; try apply IH.
    case_match; [by eapply IH2|apply IH].
  - apply tidy_bind; [apply tidy_take_store|intros st'; apply IH].
  - destruct rest as [|[v [| |]] rest']; try apply tidy_parser_error.
    apply tidy_bind; [apply tidy_take_store|intros st'].
    by eapply IH2.
  - destruct (is_short o && nonempty e); [|apply tidy_parser_error].
    destruct (short_chain e); [|apply tidy_parser_error].
    apply tidy_bind; [apply tidy_run_flags|intros st'; apply IH].
  - destruct (is_short o && nonempty e); [|apply tidy_parser_error].
    destruct (short_chain e); [|apply tidy_parser_error].
    apply tidy_bind; [apply tidy_print_help_exit|intros st'; apply IH].
  - apply tidy_bind; [apply tidy_print_help_exit|intros st'; apply IH].
Qed.

Lemma tidy_parse_args argv : tidy (parse_args argv).
Proof.
  unfold parse_args. destruct (classify argv) as [msg|toks].
  - apply tidy_parser_error.
  - apply tidy_bind; [apply tidy_consume|intros st].
    case_match; [apply tidy_parser_error|].
    case_match; [apply tidy_ret|apply tidy_parser_error].
Qed.

(** X7: a parse that returns a namespace has no effect at all: nothing is
    written to stdout or stderr, no file is touched and no collaborator is
    called. *)
Theorem parse_args_success_pure (argv : list string) (w : world)
    (ns : Namespace) (w' : world) :
  parse_args argv w = (inr ns, w') → w' = w.
Proof. intros H. exact (tidy_parse_args _ _ _ _ H). Qed.

(** X8: a parse that does not return a namespace ends in [sys.exit] in one
    of two ways: a usage error, with exit status 2, a message on stderr and
    nothing on stdout; or the help, with exit status 0, the help text on
    stdout and nothing on stderr.  Either way no file is touched. *)
Theorem parse_args_failure_modes (argv : list string) (w : world)
    (e : exn) (w' : world) :
  parse_args argv w = (inl e, w') →
  fs w' = fs w
  ∧ ((e = SystemExit 2 ∧ stdout w' = stdout w
      ∧ ∃ lines, lines ≠ [] ∧ stderr w' = stderr w ++ lines)
     ∨ (e = SystemExit 0 ∧ stderr w' = stderr w
        ∧ ∃ text, stdout w' = stdout w ++ [text])).
Proof.
  intros H. destruct (tidy_parse_args _ _ _ _ H) as (Hfs & _ & Hmode).
  by split.
Qed.

End TidyParser.

Section PlainArguments.

Context `{C : Collaborators}.

Lemma parse_optional_plain s : plain s = true → parse_optional s = inr TArg.
Proof.
  unfold plain, parse_optional. destruct s as [|c s]; [done|].
  by destruct c as [[] [] [] [] [] [] [] []].
Qed.

Lemma classify_plain argv :
  Forall (λ s, plain s = true) argv →
  classify argv = inr (map (λ s, (s, TArg)) argv).
Proof.
  induction 1 as [|s argv Hs _ IH]; [done|]. cbn.
  rewrite bool_decide_false by (by intros ->).
  by rewrite (parse_optional_plain _ Hs), IH.
Qed.

Lemma get_values_plain s : plain s = true → get_values [s] = AStr s.
Proof.
  intros Hs. unfold get_values.
  by rewrite bool_decide_false by (by intros ->).
Qed.

Lemma consume_arguments l st w :
  Forall (λ s, plain s = true) l →
  consume (map (λ s, (s, TArg)) l) st w
  = (inr (foldl (λ st s, take_positional (AStr s) s st) st l), w).
Proof.
  intros Hl. revert st. induction Hl as [|s l Hs _ IH]; intros st; [done|].
  cbn [map consume foldl]. rewrite (get_values_plain _ Hs). apply IH.
Qed.

Lemma take_positional_full l st :
  ps_npos st = 3 →
  ps_npos (foldl (λ st s, take_positional (AStr s) s st) st l) = 3
  ∧ ps_extras (foldl (λ st s, take_positional (AStr s) s st) st l)
    = ps_extras st ++ l.
Proof.
  revert st. induction l as [|s l IH]; intros st Hn; cbn.
  - by rewrite app_nil_r.
  - unfold take_positional at 2 4. rewrite Hn. cbn.
    destruct (IH (add_extra s st) Hn) as [-> ->]. cbn.
    by rewrite <- app_assoc.
Qed.

(** X9: on an argument list in which no string begins with a dash,
    [parse_args] returns a namespace exactly when there are three strings:
    they become [infile], [pii] and [outfile] in this order and every option
    has its default ([None] for the four stored options, [verbose] true, the
    other flags false); with fewer or more strings it exits with status 2. *)
Theorem parse_args_plain (argv : list string) (w : world) :
  Forall (λ s, plain s = true) argv →
  fst (parse_args argv w)
  = match argv with
    | [a; b; c] =>
        inr (mkNamespace (AStr a) (AStr b) (AStr c) None None None None
               true false false false)
    | _ => inl (SystemExit 2)
    end.
Proof.
  intros Hplain. unfold parse_args. rewrite (classify_plain _ Hplain).
  unfold bind. rewrite (consume_arguments _ _ _ Hplain).
  destruct argv as [|a [|b [|c [|d rest]]]]; try reflexivity.
  change (foldl (λ st s, take_positional (AStr s) s st) initial_pstate
            (a :: b :: c :: d :: rest))
    with (foldl (λ st s, take_positional (AStr s) s st)
            (mkPstate (set_positional 2 (AStr c) (set_positional 1 (AStr b)
                         (set_positional 0 (AStr a) defaults))) 3 [] true)
            (d :: rest)).
  destruct (take_positional_full (d :: rest)
              (mkPstate (set_positional 2 (AStr c) (set_positional 1 (AStr b)
                           (set_positional 0 (AStr a) defaults))) 3 [] true)
              eq_refl)
    as [-> ->].
  reflexivity.
Qed.

End PlainArguments.

Section PositionalsFromArguments.

Context `{C : Collaborators}.

Lemma classify_strings argv toks :
  classify argv = inr toks → map fst toks = argv.
Proof.
  revert toks. induction argv as [|a rest IH]; intros toks; cbn.
  - by intros [= <-].
  - case_bool_decide.
    + intros [= <-]. cbn. f_equal. rewrite map_map. cbn. apply map_id.
    + destruct (parse_optional a) as [|t]; [done|].
      destruct (classify rest) as [|l]; [done|]. intros [= <-].
      cbn. f_equal. by apply IH.
Qed.

Lemma take_store_state d ch v st w st' w' :
  take_store d ch v st w = (inr st', w') →
  st' = mkPstate (set_dest d v (ps_ns st)) (ps_npos st) (ps_extras st) false.
Proof.
  unfold take_store. destruct v as [s|]; [|by intros [= <- <-]].
  destruct (check_value ch s); [|done].
  by intros [= <- <-].
Qed.

Lemma filled_set_dest P d v st b :
  filled P st →
  filled P (mkPstate (set_dest d v (ps_ns st)) (ps_npos st) (ps_extras st) b).
Proof. unfold filled. by destruct d. Qed.

Lemma filled_take_flag P f b st : filled P st → filled P (take_flag f b st).
Proof. unfold filled. by destruct f. Qed.

Lemma filled_add_extra P s st : filled P st → filled P (add_extra s st).
Proof. done. Qed.

Lemma filled_take_positional P v s st :
  P v → filled P st →
  filled P (take_positional v s st)
  ∧ (ps_npos (take_positional v s st) ≤ S (ps_npos st))%nat.
Proof.
  intros Hs (H0 & H1 & H2). unfold take_positional.
  destruct (ps_npos st) as [|[|[|n]]] eqn:Hn; cbn; rewrite ?Hn;
    (split; [|lia]); unfold filled; cbn; rewrite ?Hn;
    repeat split; intros; try lia; try done;
    first [apply H0|apply H1|apply H2]; lia.
Qed.

Lemma run_flags_filled P acts st w st' w' :
  run_flags acts st w = (inr st', w') →
  filled P st → filled P st' ∧ ps_npos st' = ps_npos st.
Proof.
  revert st. induction acts as [|[d ch|f b|] acts IH]; intros st; cbn; try done.
  - by intros [= <- <-].
  - intros H Hf. destruct (IH _ H (filled_take_flag P f b st Hf)) as [? ->].
    done.
Qed.

Lemma parse_optional_not_dash arg t : parse_optional arg = inr t → t ≠ TDash.
Proof.
  unfold parse_optional. intros H. repeat case_match; by simplify_eq.
Qed.

(** Without the [--] separator no classified string is a separator. *)
Lemma classify_no_dash argv toks :
  "--" ∉ argv → classify argv = inr toks →
  Forall (λ st, st.1 ≠ "--" ∧ st.2 ≠ TDash) toks.
Proof.
  revert toks. induction argv as [|a rest IH]; intros toks Hno; cbn.
  - intros [= <-]. constructor.
  - apply not_elem_of_cons in Hno as [Ha Hrest].
    rewrite bool_decide_false by done.
    destruct (parse_optional a) as [|t] eqn:Ht; [done|].
    destruct (classify rest) as [|l]; [done|]. intros [= <-].
    constructor; [|by apply IH]. split; [done|].
    by eapply parse_optional_not_dash.
Qed.

(** The positionals a successful [consume] has filled come from the
    strings it went through, one string for each at least. *)
Lemma consume_filled P toks st w st' w' :
  Forall (λ st, st.1 ≠ "--" ∧ st.2 ≠ TDash) toks →
  (∀ s, s ∈ map fst toks → P (AStr s)) →
  filled P st →
  consume toks st w = (inr st', w') →
  filled P st' ∧ (ps_npos st' ≤ ps_npos st + length toks)%nat.
Proof.
  revert st w. induction toks as [|[s t] rest IH IH2] using list_ind_skip;
    intros st w Hnd HP Hf; cbn.
  { intros [= <- <-]. split; [done|lia]. }
  apply Forall_cons in Hnd as [[Hs Ht] Hnd]; cbn in Hs, Ht.
  assert (HPs : P (AStr s)) by (apply HP; cbn; apply elem_of_cons; by left).
  assert (HPr : ∀ s', s' ∈ map fst rest → P (AStr s'))
    by (intros s' Hs'; apply HP; cbn; apply elem_of_cons; by right).
  destruct t as [| |[[d ch|f b|]|] o [e|]].
  - rewrite bool_decide_false by done. intros Hrun.
    destruct (filled_take_positional P (AStr s) s st HPs Hf) as [Hf' Hn].
    destruct (IH _ _ Hnd HPr Hf' Hrun). split; [done|lia].
  - done.
  - intros (st1 & w1 & Hts & Hk)%bind_inr.
    apply take_store_state in Hts as ->.
    destruct (IH _ _ Hnd HPr (filled_set_dest P d _ st false Hf) Hk).
    split; [done|cbn in *; lia].
  - destruct rest as [|[v [| |]] rest']; try done.
    intros (st1 & w1 & Hts & Hk)%bind_inr.
    apply take_store_state in Hts as ->.
    assert (HPr' : ∀ s', s' ∈ map fst rest' → P (AStr s'))
      by (intros s' Hs'; apply HPr; cbn; apply elem_of_cons; by right).
    apply Forall_cons in Hnd as [_ Hnd].
    destruct (IH2 _ _ eq_refl _ _ Hnd HPr'
                (filled_set_dest P d _ st false Hf) Hk).
    split; [done|cbn in *; lia].
  - destruct (is_short o && nonempty e); [|done].
    destruct (short_chain e); [|done].
    intros (st1 & w1 & Hrf & Hk)%bind_inr.
    destruct (run_flags_filled P _ _ _ _ _ Hrf (filled_take_flag P f b st Hf))
      as [Hf1 Hn1].
    destruct (IH _ _ Hnd HPr Hf1 Hk). split; [done|cbn in *; lia].
  - intros Hrun.
    destruct (IH _ _ Hnd HPr (filled_take_flag P f b st Hf) Hrun).
    split; [done|cbn in *; lia].
  - destruct (is_short o && nonempty e); [|done].
    destruct (short_chain e); [|done]. done.
  - done.
  - intros Hrun.
    destruct (IH _ _ Hnd HPr (filled_add_extra P s st Hf) Hrun).
    split; [done|cbn in *; lia].
  - intros Hrun.
    destruct (IH _ _ Hnd HPr (filled_add_extra P s st Hf) Hrun).
    split; [done|cbn in *; lia].
Qed.

(** X10: a namespace that [parse_args] returns for a command line without
    the [--] separator has its three paths from the command line: at least
    three argument strings were given, and [infile], [pii] and [outfile] are
    among them (never a default). *)
Theorem parse_args_positionals_given (argv : list string) (w : world)
    (ns : Namespace) (w' : world) :
  "--" ∉ argv →
  parse_args argv w = (inr ns, w') →
  (3 ≤ length argv)%nat
  ∧ infile ns ∈ AStr <$> argv ∧ pii ns ∈ AStr <$> argv
  ∧ outfile ns ∈ AStr <$> argv.
Proof.
  intros Hno. unfold parse_args.
  destruct (classify argv) as [msg|toks] eqn:Hcl; [done|].
  intros (st & w1 & Hc & Hk)%bind_inr.
  apply classify_strings in Hcl as Hstr.
  apply (classify_no_dash _ _ Hno) in Hcl as Hnd.
  apply (consume_filled (λ v, v ∈ AStr <$> argv) _ _ _ _ _ Hnd)
    in Hc as [(H0 & H1 & H2) Hn].
  - destruct (ps_npos st <? 3)%nat eqn:Hlt; [done|].
    apply Nat.ltb_ge in Hlt. destruct (ps_extras st); [|done].
    injection Hk as <- <-.
    assert (length toks = length argv) as Hlen
      by (by rewrite <- Hstr, length_map).
    cbn in Hn. repeat split; [lia|apply H0; lia|apply H1; lia|apply H2; lia].
  - rewrite Hstr. intros s Hs. apply list_elem_of_fmap. by exists s.
  - unfold filled; cbn. repeat split; lia.
Qed.

End PositionalsFromArguments.

Section FlagsFirst.

Context `{C : Collaborators}.

Lemma wf_flag_actions : Forall (λ oa, wf_flag oa.2) option_string_actions.
Proof.
  unfold option_string_actions.
  repeat (constructor; [intros f b [= <- <-] || intros f b [=]; done|]).
  constructor.
Qed.

Lemma assoc_wf_flag k a : assoc k option_string_actions = Some a → wf_flag a.
Proof.
  intros H%assoc_elem_of. pose proof wf_flag_actions as Hall.
  rewrite Forall_forall in Hall. exact (Hall _ H).
Qed.

Lemma get_option_tuples_wf_flag arg a o e :
  (a, o, e) ∈ get_option_tuples arg → wf_flag a.
Proof.
  pose proof wf_flag_actions as Hall. rewrite Forall_forall in Hall.
  unfold get_option_tuples.
  destruct arg as [|c1 [|c2 rest]]; try (by intros ?%elem_of_nil);
    repeat case_match; try (by intros ?%elem_of_nil);
    intros ([o' a'] & Hin & Hf)%list_elem_of_omap;
    repeat case_match; simplify_eq; exact (Hall _ Hin).
Qed.

Lemma parse_optional_wf_flag arg t :
  parse_optional arg = inr t → wf_flag_token t.
Proof.
  unfold parse_optional, wf_flag_token. intros H a o e ->.
  repeat case_match; simplify_eq;
    try (by eapply assoc_wf_flag);
    eapply get_option_tuples_wf_flag;
    match goal with H : get_option_tuples _ = _ |- _ => rewrite H end;
    by left.
Qed.

Lemma classify_wf_flag args toks :
  classify args = inr toks → Forall (λ st, wf_flag_token st.2) toks.
Proof.
  revert toks. induction args as [|a rest IH]; intros toks; cbn.
  - intros [= <-]. constructor.
  - case_bool_decide.
    + intros [= <-]. constructor; [done|].
      apply Forall_forall.
      intros [s t] (x & [= -> ->] & _)%list_elem_of_fmap. by intros a' o e.
    + destruct (parse_optional a) as [|t] eqn:Ht; [done|].
      destruct (classify rest) as [|l]; [done|]. intros [= <-].
      constructor; [by eapply parse_optional_wf_flag|by apply IH].
Qed.

Lemma short_chain_wf_flag e l : short_chain e = Some l → Forall wf_flag l.
Proof.
  revert l. induction e as [|c e IH]; intros l.
  - intros [= <-]. constructor.
  - change (short_chain (String c e))
      with (match assoc (String "-" (String c EmptyString))
                    option_string_actions with
            | Some a =>
                match short_chain e with
                | Some l => Some (a :: l)
                | None => None
                end
            | None => None
            end).
    destruct (assoc (String "-" (String c EmptyString)) option_string_actions)
      as [a|] eqn:Ha; [|done].
    destruct (short_chain e) as [l'|]; [|done]. intros [= <-].
    constructor; [by eapply assoc_wf_flag|by apply IH].
Qed.

Lemma bind_map_run {A A' B B'} (g : A → A') (h : B → B')
    (m : M A) (m' : M A') (k : A → M B) (k' : A' → M B') w :
  m' w = map_run g (m w) →
  (∀ a w1, k' (g a) w1 = map_run h (k a w1)) →
  bind m' k' w = map_run h (bind m k w).
Proof.
  intros Hm Hk. unfold bind. rewrite Hm.
  destruct (m w) as [[e|a] w1]; cbn; [done|apply Hk].
Qed.

Section OneFlag.

Context (f : flag).

(** Storing the constant of the flag [f] in the namespace of a state. *)

Lemma upd_take_positional v s st :
  take_positional v s (with_ns (set_flag f (flag_const f)) st)
  = with_ns (set_flag f (flag_const f)) (take_positional v s st).
Proof.
  unfold take_positional, with_ns, add_extra; cbn.
  destruct (ps_npos st) as [|[|[|n]]]; cbn; by destruct f.
Qed.

Lemma upd_take_store d ch v st w :
  take_store d ch v (with_ns (set_flag f (flag_const f)) st) w
  = map_run (with_ns (set_flag f (flag_const f))) (take_store d ch v st w).
Proof.
  unfold take_store. destruct v as [s|];
    [destruct (check_value ch s); [|done]|];
    cbn; unfold with_ns; cbn; by destruct f, d.
Qed.

Lemma upd_take_flag f' st :
  take_flag f' (flag_const f') (with_ns (set_flag f (flag_const f)) st)
  = with_ns (set_flag f (flag_const f)) (take_flag f' (flag_const f') st).
Proof. unfold take_flag, with_ns; cbn. by destruct f, f'. Qed.

Lemma upd_run_flags acts st w :
  Forall wf_flag acts →
  run_flags acts (with_ns (set_flag f (flag_const f)) st) w
  = map_run (with_ns (set_flag f (flag_const f))) (run_flags acts st w).
Proof.
  intros Hwf. revert st.
  induction Hwf as [|[d ch|f' b|] acts Ha _ IH]; intros st; cbn; try done.
  rewrite (Ha f' b eq_refl), upd_take_flag. apply IH.
Qed.

(** Setting the flag before or after consuming the arguments is the
    same. *)
Lemma upd_consume toks st w :
  Forall (λ st, wf_flag_token st.2) toks →
  consume toks (with_ns (set_flag f (flag_const f)) st) w = map_run (with_ns (set_flag f (flag_const f))) (consume toks st w).
Proof.
  revert st w. induction toks as [|[s t] rest IH IH2] using list_ind_skip;
    intros st w Hwf; [done|].
  apply Forall_cons in Hwf as [Hwt Hwf]; cbn in Hwt.
  destruct t as [| |[[d ch|f' b|]|] o [e|]].
  2: { cbn [consume].
       change (ps_after_pos (with_ns (set_flag f (flag_const f)) st))
         with (ps_after_pos st).
       change (ps_npos (with_ns (set_flag f (flag_const f)) st))
         with (ps_npos st).
       change (add_extra s (with_ns (set_flag f (flag_const f)) st))
         with (with_ns (set_flag f (flag_const f)) (add_extra s st)).
       destruct (ps_after_pos st); [by apply IH|].
       destruct rest as [|[v [| |]] rest']; try (by apply IH).
       destruct (ps_npos st <? 3)%nat; [|by apply IH].
       rewrite upd_take_positional. apply Forall_cons in Hwf as [_ Hwf].
       by eapply IH2. }
  all: cbn.
  - rewrite upd_take_positional. by apply IH.
  - apply bind_map_run with (g := with_ns (set_flag f (flag_const f))); [apply upd_take_store|].
    intros st1 w1. by apply IH.
  - destruct rest as [|[v [| |]] rest']; try done.
    apply Forall_cons in Hwf as [_ Hwf].
    apply bind_map_run with (g := with_ns (set_flag f (flag_const f))); [apply upd_take_store|].
    intros st1 w1. by eapply IH2.
  - destruct (is_short o && nonempty e); [|done].
    destruct (short_chain e) as [l|] eqn:Hl; [|done].
    apply bind_map_run with (g := with_ns (set_flag f (flag_const f))).
    + rewrite (Hwt _ _ _ eq_refl f' b eq_refl), upd_take_flag.
      apply upd_run_flags. by eapply short_chain_wf_flag.
    + intros st1 w1. by apply IH.
  - rewrite (Hwt _ _ _ eq_refl f' b eq_refl), upd_take_flag. by apply IH.
  - destruct (is_short o && nonempty e); [|done].
    by destruct (short_chain e).
  - done.
  - change (add_extra s (with_ns (set_flag f (flag_const f)) st)) with (with_ns (set_flag f (flag_const f)) (add_extra s st)).
    by apply IH.
  - change (add_extra s (with_ns (set_flag f (flag_const f)) st)) with (with_ns (set_flag f (flag_const f)) (add_extra s st)).
    by apply IH.
Qed.

End OneFlag.

Lemma flag_option_token o f :
  (o, f) ∈ flag_options →
  o ≠ "--"
  ∧ parse_optional o = inr (TOpt (Some (StoreConst f (flag_const f))) o None).
Proof.
  unfold flag_options. rewrite !elem_of_cons, elem_of_nil.
  intros [[= -> ->]|[[= -> ->]|[[= -> ->]|[[= -> ->]|[[= -> ->]|[]]]]]];
    by split.
Qed.

(** X11: a flag given first does not interfere with the rest of the
    command line: for each of [-q], [--quiet], [--reraise], [--show-stats]
    and [--show-tasks], parsing the flag followed by an argument list ends
    as parsing the argument list alone does (same exit, same output), and
    when that returns a namespace the result is this namespace with the
    flag's constant stored. *)
Theorem flag_first (o : string) (f : flag) (argv : list string) (w : world) :
  (o, f) ∈ flag_options →
  parse_args (o :: argv) w
  = map_run (set_flag f (flag_const f)) (parse_args argv w).
Proof.
  intros [Hne Htok]%flag_option_token. unfold parse_args.
  cbn [classify]. rewrite bool_decide_false by done. rewrite Htok.
  destruct (classify argv) as [msg|toks] eqn:Hcl; [done|].
  apply classify_wf_flag in Hcl.
  apply bind_map_run with (g := with_ns (set_flag f (flag_const f))).
  - cbn. change (take_flag f (flag_const f) initial_pstate)
      with (with_ns (set_flag f (flag_const f)) initial_pstate).
    by apply upd_consume.
  - intros st w1. unfold with_ns. cbn [ps_npos ps_extras ps_ns].
    destruct (ps_npos st <? 3)%nat; [reflexivity|].
    destruct (ps_extras st); reflexivity.
Qed.

End FlagsFirst.

(** * Further properties of main *)

Section MainRuns.

Context `{C : Collaborators}.

(** X12: a command line that does not parse stops [main] at once: [main]
    ends with the [sys.exit] of the parser (status 0 for the help, 2 for a
    usage error), no collaborator is called and no file is touched. *)
Theorem main_usage_error (argv : list string) (w : world)
    (e : exn) (w1 : world) :
  parse_args argv w = (inl e, w1) →
  main argv w = (inl e, w1)
  ∧ (e = SystemExit 0 ∨ e = SystemExit 2)
  ∧ events_of (main argv) w = []
  ∧ fs w1 = fs w.
Proof.
  intros Hp. pose proof (tidy_parse_args _ _ _ _ Hp) as (Hfs & Htr & Hmode).
  rewrite (main_parse_error _ _ _ _ Hp).
  split; [done|]. split; [destruct Hmode as [(-> & _)|(-> & _)]; auto|].
  split; [|done]. apply events_of_app.
  rewrite (main_parse_error _ _ _ _ Hp). cbn. by rewrite app_nil_r.
Qed.

(** X13: the only thing [main] ever writes to stdout is the help text, and
    then it exits with status 0 having called no collaborator and touched no
    file; in every other run stdout is as it was. *)
Theorem main_stdout (argv : list string) (w : world) :
  stdout (snd (main argv w)) = stdout w
  ∨ ((∃ text, stdout (snd (main argv w)) = stdout w ++ [text])
     ∧ fst (main argv w) = inl (SystemExit 0)
     ∧ events_of (main argv) w = []
     ∧ fs (snd (main argv w)) = fs w).
Proof.
  destruct (parse_args argv w) as [[e|args] w1] eqn:Hp.
  - pose proof (tidy_parse_args _ _ _ _ Hp) as (Hfs & Htr & Hmode).
    rewrite (main_parse_error _ _ _ _ Hp). cbn.
    destruct Hmode as [(-> & Hout & _)|(-> & _ & Hout)]; [by left|right].
    split; [done|]. split; [done|]. split; [|done].
    apply events_of_app. rewrite (main_parse_error _ _ _ _ Hp). cbn.
    by rewrite app_nil_r.
  - pose proof (tidy_parse_args _ _ _ _ Hp) as Hw. cbn in Hw. subst w1.
    left. rewrite (main_parsed _ _ _ _ Hp). unfold try_except.
    destruct (process_written args w) as (Hout & _).
    destruct (process args w) as [[e|[]] w2]; cbn in Hout; [|done].
    destruct (isinstance_Exception e); [|done].
    unfold bind, print_stderr; cbn. by destruct (reraise args).
Qed.

(** X14: [main] returns normally exactly when the command line parses and
    [process] returns on the parsed arguments; [main] then leaves the world
    as [process] left it, writing nothing of its own. *)
Theorem main_returns (argv : list string) (w : world) :
  fst (main argv w) = inr tt
  ↔ ∃ args, fst (parse_args argv w) = inr args
            ∧ fst (process args w) = inr tt
            ∧ main argv w = process args w.
Proof.
  destruct (parse_args argv w) as [[e|args] w1] eqn:Hp.
  - rewrite (main_parse_error _ _ _ _ Hp). cbn. split; [done|].
    by intros (args & ? & _).
  - pose proof (tidy_parse_args _ _ _ _ Hp) as Hw. cbn in Hw. subst w1.
    rewrite (main_parsed _ _ _ _ Hp). unfold try_except. cbn.
    split.
    + intros Hret. exists args. split; [done|].
      destruct (process args w) as [[e|[]] w2]; [|done].
      destruct (isinstance_Exception e); [|done].
      unfold bind, print_stderr in Hret; cbn in Hret.
      by destruct (reraise args).
    + intros (args' & [= <-] & Hproc & _).
      by destruct (process args w) as [[e|[]] w2].
Qed.

End MainRuns.

(** * The further properties at sample inputs *)

(** An unreadable document stops the run; so does a missing collection. *)
Lemma load_errors_stop_process_witness :
  fst (process (C := demo None (Some read_error) None) quiet_args demo_world)
  = inl read_error
  ∧ fst (process (C := demo None None None) missing_pii_args demo_world)
    = inl (Exception "FileNotFoundError" "missing.json").
Proof.
  split.
  - destruct (load_errors_stop_process (C := demo None (Some read_error) None)
                quiet_args demo_world) as [Hdoc _].
    destruct (Hdoc PNone tt read_error) as (Hres & _);
      [vm_compute; reflexivity|reflexivity|reflexivity|exact Hres].
  - destruct (load_errors_stop_process (C := demo None None None)
                missing_pii_args demo_world) as [_ Hpii].
    destruct (Hpii PNone tt "Contact Jane Doe"
                (Exception "FileNotFoundError" "missing.json")) as (Hres & _);
      [vm_compute; reflexivity|reflexivity|vm_compute; reflexivity
      |vm_compute; reflexivity|exact Hres].
Defined.

(** A policy file that is not there. *)
Lemma bad_policy_file_stops_process_witness :
  fst (process (C := demo None None None) absent_policy_args demo_world)
  = inl (Exception "FileNotFoundError" "absent.json")
  ∧ fs (snd (process (C := demo None None None) absent_policy_args demo_world))
    = fs demo_world
  ∧ events_of (process (C := demo None None None) absent_policy_args) demo_world
    = [EvOpen "absent.json"].
Proof.
  apply (bad_policy_file_stops_process (C := demo None None None)
           absent_policy_args demo_world "absent.json").
  - reflexivity.
  - done.
  - vm_compute. reflexivity.
Defined.

(** A run in which nothing raises writes the document to [out.yml]. *)
Lemma process_success_witness :
  fs (snd (process (C := demo None None None) quiet_args demo_world))
  = <["out.yml" := "Contact Jane Doe"]> demo_files.
Proof.
  destruct (process_success (C := demo None None None) quiet_args demo_world
              tt "Contact Jane Doe" "Contact Jane Doe" "[]") as (_ & Hfs & _).
  - exists PNone. repeat split; vm_compute; reflexivity.
  - reflexivity.
  - rewrite Hfs. reflexivity.
Defined.

(** A quiet run leaves stderr empty. *)
Lemma process_quiet_run_witness :
  stderr (snd (process (C := demo None None None) quiet_args demo_world)) = [].
Proof.
  destruct (process_quiet_run (C := demo None None None) quiet_args demo_world)
    as [_ Hquiet].
  rewrite Hquiet by reflexivity. reflexivity.
Defined.

(** The four progress lines of a verbose run with a policy file. *)
Lemma process_progress_lines_witness :
  stderr (snd (process (C := demo None None None) verbose_args demo_world))
  = [ ". Loading policy file: policy.json" +:+ newline;
      ". Loading document: doc.yml" +:+ newline;
      ". Loading Pii collection: pii.json" +:+ newline;
      ". Processing and dumping to: out.yml" +:+ newline ].
Proof.
  rewrite (process_progress_lines (C := demo None None None) verbose_args
             demo_world tt "Contact Jane Doe" "Contact Jane Doe" "[]").
  - reflexivity.
  - reflexivity.
  - exists (PDict []). repeat split; vm_compute; reflexivity.
  - reflexivity.
Defined.

(** Parsing a good command line leaves the world alone. *)
Lemma parse_args_success_pure_witness :
  snd (parse_args (C := demo None None None)
         ["-q"; "doc.yml"; "pii.json"; "out.yml"] demo_world) = demo_world.
Proof.
  apply (parse_args_success_pure (C := demo None None None)
           ["-q"; "doc.yml"; "pii.json"; "out.yml"] demo_world quiet_args).
  vm_compute. reflexivity.
Defined.

(** An unknown option is a usage error: status 2, stderr only. *)
Lemma parse_args_failure_modes_witness :
  fs (snd (parse_args (C := demo None None None)
             ["--bogus"; "doc.yml"; "pii.json"; "out.yml"] demo_world))
  = fs demo_world
  ∧ ((SystemExit 2 = SystemExit 2
      ∧ stdout (snd (parse_args (C := demo None None None)
                       ["--bogus"; "doc.yml"; "pii.json"; "out.yml"] demo_world))
        = stdout demo_world
      ∧ ∃ lines, lines ≠ []
          ∧ stderr (snd (parse_args (C := demo None None None)
                           ["--bogus"; "doc.yml"; "pii.json"; "out.yml"]
                           demo_world))
            = stderr demo_world ++ lines)
     ∨ (SystemExit 2 = SystemExit 0
        ∧ stderr (snd (parse_args (C := demo None None None)
                         ["--bogus"; "doc.yml"; "pii.json"; "out.yml"]
                         demo_world))
          = stderr demo_world
        ∧ ∃ text,
            stdout (snd (parse_args (C := demo None None None)
                           ["--bogus"; "doc.yml"; "pii.json"; "out.yml"]
                           demo_world))
            = stdout demo_world ++ [text])).
Proof.
  apply (parse_args_failure_modes (C := demo None None None)
           ["--bogus"; "doc.yml"; "pii.json"; "out.yml"] demo_world).
  vm_compute. reflexivity.
Defined.

(** Three plain strings and all the defaults. *)
Lemma parse_args_plain_witness :
  fst (parse_args (C := demo None None None)
         ["doc.yml"; "pii.json"; "out.yml"] demo_world)
  = inr (mkNamespace (AStr "doc.yml") (AStr "pii.json") (AStr "out.yml")
              None None None None
           true false false false).
Proof.
  apply (parse_args_plain (C := demo None None None)
           ["doc.yml"; "pii.json"; "out.yml"] demo_world).
  repeat constructor.
Defined.

(** The three paths of a parsed command line are among its strings. *)
Lemma parse_args_positionals_given_witness :
  (3 ≤ length ["--reraise"; "doc.yml"; "pii.json"; "out.yml"])%nat
  ∧ AStr "doc.yml" ∈ AStr <$> ["--reraise"; "doc.yml"; "pii.json"; "out.yml"]
  ∧ AStr "pii.json" ∈ AStr <$> ["--reraise"; "doc.yml"; "pii.json"; "out.yml"]
  ∧ AStr "out.yml" ∈ AStr <$> ["--reraise"; "doc.yml"; "pii.json"; "out.yml"].
Proof.
  apply (parse_args_positionals_given (C := demo None None None)
           ["--reraise"; "doc.yml"; "pii.json"; "out.yml"] demo_world
           (mkNamespace (AStr "doc.yml") (AStr "pii.json") (AStr "out.yml")
              None None None None
              true true false false) demo_world).
  - apply (bool_decide_unpack _). vm_compute. exact I.
  - vm_compute. reflexivity.
Defined.

(** [-q] in front of three paths only turns [verbose] off. *)
Lemma flag_first_witness :
  parse_args (C := demo None None None)
    ["-q"; "doc.yml"; "pii.json"; "out.yml"] demo_world
  = (inr quiet_args, demo_world).
Proof.
  rewrite (flag_first (C := demo None None None) "-q" f_verbose
             ["doc.yml"; "pii.json"; "out.yml"] demo_world).
  - vm_compute. reflexivity.
  - apply elem_of_cons. by left.
Defined.

(** One path only: [main] exits with status 2 and does nothing else. *)
Lemma main_usage_error_witness :
  fst (main (C := demo None None None) ["doc.yml"] demo_world)
  = inl (SystemExit 2)
  ∧ events_of (main (C := demo None None None) ["doc.yml"]) demo_world = [].
Proof.
  destruct (main_usage_error (C := demo None None None) ["doc.yml"] demo_world
              (SystemExit 2)
              (snd (parse_args (C := demo None None None) ["doc.yml"] demo_world)))
    as (Hmain & _ & Hev & _).
  - vm_compute. reflexivity.
  - rewrite Hmain. by split.
Defined.

(** A run in which nothing raises: [main] returns. *)
Lemma main_returns_witness :
  fst (main (C := demo None None None)
         ["-q"; "doc.yml"; "pii.json"; "out.yml"] demo_world) = inr tt.
Proof.
  apply (main_returns (C := demo None None None)
           ["-q"; "doc.yml"; "pii.json"; "out.yml"] demo_world).
  exists quiet_args. repeat split; vm_compute; reflexivity.
Defined.
